(** * VtsHalEqualizerTargetTest: range validation and read-back comparison

    A shallow embedding of the logic of
    [audio/aidl/vts/VtsHalEqualizerTargetTest.cpp]: the capability ranges
    derived from the descriptor, the range validator [isTagInRange], the
    comparator [isEqParameterExpected], the driver
    [SetAndGetEqualizerParameters] and the test bodies that feed it.

    Conventions.
    - C++ [int] values are integers of [Z]; the validator and the comparator
      only compare them, the test bodies add or subtract one and halve a sum.
    - A function that can stop the process (an AIDL union read through the
      wrong tag, a read through an end iterator) returns a [result].
    - gtest expectations that fail without stopping the function are
      recorded in a log of [event]s. *)

From Stdlib Require Import ZArith List Bool Lia Sorted Permutation.
Import ListNotations.
Local Open Scope Z_scope.

(* ------------------------------------------------------------------ *)
(** ** Faults and the [result] monad *)

(** The two ways the code under test can stop without returning. The
    accessor [get<tag>()] that the AIDL compiler emits for a union checks
    the active tag and aborts on another one; reading through the end
    iterator of a vector is undefined. *)
Inductive fault : Type :=
| bad_union_access      (* [u.get<tag>()] while [u] holds another tag *)
| end_iterator_read.    (* [it->field] with [it] the end iterator     *)

Inductive result (A : Type) : Type :=
| Returned (a : A)
| Stopped (f : fault).
Arguments Returned {A} a.
Arguments Stopped {A} f.

Definition result_bind {A B} (r : result A) (k : A -> result B) : result B :=
  match r with
  | Returned a => k a
  | Stopped f => Stopped f
  end.

Declare Scope result_scope.
Delimit Scope result_scope with result.
Notation "x <- c ;; k" := (result_bind c (fun x => k))
  (at level 61, c at next level, right associativity) : result_scope.

(* ------------------------------------------------------------------ *)
(** ** Data model: the AIDL types the test manipulates *)

(** [Equalizer::BandLevel]: [operator==] and [operator<] are the ones the
    AIDL compiler emits, comparing [std::tie(index, levelMb)]. *)
Module BandLevel.
Record t : Type := mk { index : Z; levelMb : Z }.

Definition eqb (a b : t) : bool :=
  (index a =? index b) && (levelMb a =? levelMb b).

Definition ltb (a b : t) : bool :=
  (index a <? index b)
  || (negb (index b <? index a) && (levelMb a <? levelMb b)).
End BandLevel.

(** [Equalizer::Preset] and [Equalizer::BandFrequency], as listed by the
    capability; the preset name is kept as its length only. *)
Module Preset.
Record t : Type := mk { index : Z; name : nat }.
End Preset.

Module BandFrequency.
Record t : Type := mk { index : Z; minMh : Z; maxMh : Z }.
End BandFrequency.

(** The [Equalizer] union: tags [vendor], [bandLevels], [preset]. The
    vendor extension payload is opaque to the test and kept as an integer. *)
Module Equalizer.
Inductive Tag : Type := vendor | bandLevels | preset.

Inductive t : Type :=
| make_vendor (ext : Z)
| make_bandLevels (levels : list BandLevel.t)
| make_preset (presetIndex : Z).

Definition getTag (e : t) : Tag :=
  match e with
  | make_vendor _ => vendor
  | make_bandLevels _ => bandLevels
  | make_preset _ => preset
  end.

Definition get_bandLevels (e : t) : result (list BandLevel.t) :=
  match e with
  | make_bandLevels l => Returned l
  | _ => Stopped bad_union_access
  end.

Definition get_preset (e : t) : result Z :=
  match e with
  | make_preset i => Returned i
  | _ => Stopped bad_union_access
  end.

Definition Tag_eqb (a b : Tag) : bool :=
  match a, b with
  | vendor, vendor | bandLevels, bandLevels | preset, preset => true
  | _, _ => false
  end.

Fixpoint levels_eqb (l1 l2 : list BandLevel.t) : bool :=
  match l1, l2 with
  | [], [] => true
  | a :: l1', b :: l2' => BandLevel.eqb a b && levels_eqb l1' l2'
  | _, _ => false
  end.

(** [operator==] of the union: same alternative, equal payload. *)
Definition eqb (a b : t) : bool :=
  match a, b with
  | make_vendor x, make_vendor y => x =? y
  | make_bandLevels l1, make_bandLevels l2 => levels_eqb l1 l2
  | make_preset i, make_preset j => i =? j
  | _, _ => false
  end.

(** [Equalizer::Id]. *)
Inductive Id : Type :=
| vendorExtensionTag (n : Z)
| commonTag (tag : Tag).

(** [Equalizer::Capability]. *)
Record Capability : Type :=
  { bandFrequencies : list BandFrequency.t; presets : list Preset.t }.
End Equalizer.

(** [Parameter::Specific] and [Parameter]: only the [equalizer] and
    [specific] alternatives are read by the test; every other alternative is
    [other which payload]. *)
Module Specific.
Inductive Tag : Type := equalizer | otherTag (which : nat).

Inductive t : Type :=
| make_equalizer (eq : Equalizer.t)
| make_other (which : nat) (payload : Z).

Definition getTag (s : t) : Tag :=
  match s with
  | make_equalizer _ => equalizer
  | make_other w _ => otherTag w
  end.

Definition get_equalizer (s : t) : result Equalizer.t :=
  match s with
  | make_equalizer e => Returned e
  | make_other _ _ => Stopped bad_union_access
  end.

Definition Tag_eqb (a b : Tag) : bool :=
  match a, b with
  | equalizer, equalizer => true
  | otherTag v, otherTag w => Nat.eqb v w
  | _, _ => false
  end.

Definition eqb (a b : t) : bool :=
  match a, b with
  | make_equalizer x, make_equalizer y => Equalizer.eqb x y
  | make_other v x, make_other w y => Nat.eqb v w && (x =? y)
  | _, _ => false
  end.
End Specific.

(** The [Parameter] union ([Parameter] is a reserved word here). *)
Module EffectParameter.
Inductive Tag : Type := specific | otherTag (which : nat).

Inductive t : Type :=
| make_specific (s : Specific.t)
| make_other (which : nat) (payload : Z).

Definition getTag (p : t) : Tag :=
  match p with
  | make_specific _ => specific
  | make_other w _ => otherTag w
  end.

Definition get_specific (p : t) : result Specific.t :=
  match p with
  | make_specific s => Returned s
  | make_other _ _ => Stopped bad_union_access
  end.

Definition Tag_eqb (a b : Tag) : bool :=
  match a, b with
  | specific, specific => true
  | otherTag v, otherTag w => Nat.eqb v w
  | _, _ => false
  end.

Definition eqb (a b : t) : bool :=
  match a, b with
  | make_specific x, make_specific y => Specific.eqb x y
  | make_other v x, make_other w y => Nat.eqb v w && (x =? y)
  | _, _ => false
  end.

(** [Parameter::Id]. *)
Inductive Id : Type :=
| equalizerTag (id : Equalizer.Id)
| otherId (which : nat) (payload : Z).
End EffectParameter.

(** [binder_exception_t] and the two codes the driver names. *)
Definition binder_exception_t : Type := Z.
Definition EX_NONE : binder_exception_t := 0.
Definition EX_ILLEGAL_ARGUMENT : binder_exception_t := -3.

(* ------------------------------------------------------------------ *)
(** ** The fixture [EqualizerTest] *)

Record EqualizerTest : Type :=
  { mPresetIndex : Z * Z;
    mBandIndex : Z * Z;
    mBandLevel : Z;
    mTags : list (Equalizer.Tag * Equalizer.t) }.

(** [kBandLevels], the values [mBandLevel] ranges over. *)
Definition kBandLevels : list Z := [0; -10; 10].

Definition addPresetParam (fx : EqualizerTest) (preset : Z) : EqualizerTest :=
  {| mPresetIndex := mPresetIndex fx;
     mBandIndex := mBandIndex fx;
     mBandLevel := mBandLevel fx;
     mTags := mTags fx ++ [(Equalizer.preset, Equalizer.make_preset preset)] |}.

Definition addBandLevelsParam (fx : EqualizerTest)
    (bandLevels : list BandLevel.t) : EqualizerTest :=
  {| mPresetIndex := mPresetIndex fx;
     mBandIndex := mBandIndex fx;
     mBandLevel := mBandLevel fx;
     mTags := mTags fx
              ++ [(Equalizer.bandLevels, Equalizer.make_bandLevels bandLevels)] |}.

Definition CleanUp (fx : EqualizerTest) : EqualizerTest :=
  {| mPresetIndex := mPresetIndex fx;
     mBandIndex := mBandIndex fx;
     mBandLevel := mBandLevel fx;
     mTags := [] |}.

Definition getDefaultParamSpecific : Specific.t :=
  Specific.make_equalizer (Equalizer.make_preset 0).

(* ------------------------------------------------------------------ *)
(** ** Range validator *)

(** [isBandInRange]: the loop leaves with [false] at the first entry whose
    index is outside [mBandIndex]. *)
Fixpoint isBandInRange (fx : EqualizerTest) (bandLevel : list BandLevel.t) : bool :=
  match bandLevel with
  | [] => true
  | it :: rest =>
      if (BandLevel.index it <? fst (mBandIndex fx))
         || (BandLevel.index it >? snd (mBandIndex fx))
      then false
      else isBandInRange fx rest
  end.

Definition isTagInRange (fx : EqualizerTest) (tag : Equalizer.Tag)
    (eq : Equalizer.t) : result bool :=
  match tag with
  | Equalizer.preset =>
      (index <- Equalizer.get_preset eq ;;
       Returned ((index >=? fst (mPresetIndex fx))
                 && (index <=? snd (mPresetIndex fx))))%result
  | Equalizer.bandLevels =>
      (bandLevel <- Equalizer.get_bandLevels eq ;;
       Returned (isBandInRange fx bandLevel))%result
  | _ => Returned false
  end.

(* ------------------------------------------------------------------ *)
(** ** The three standard algorithms the comparator calls *)

(** [std::sort(first, last, comp)] with [comp a b := a.index < b.index].
    The standard fixes the outcome up to the order of entries with equal
    index: a permutation of the input, ascending for [comp]. The model is
    the insertion sort the library runs on short ranges, which keeps
    entries of equal index in their input order; the theorems on the
    normalization use [std_sort_perm] and [std_sort_sorted] only, and so
    hold for any sort that meets the standard's contract. *)
Definition comp_index (a b : BandLevel.t) : bool :=
  BandLevel.index a <? BandLevel.index b.

Fixpoint insert_sorted (x : BandLevel.t) (l : list BandLevel.t) : list BandLevel.t :=
  match l with
  | [] => [x]
  | y :: l' => if comp_index y x then y :: insert_sorted x l' else x :: y :: l'
  end.

Fixpoint std_sort (l : list BandLevel.t) : list BandLevel.t :=
  match l with
  | [] => []
  | x :: l' => insert_sorted x (std_sort l')
  end.

(** [v.erase(std::unique(v.begin(), v.end()), v.end())]: of every run of
    consecutive entries equal under [operator==], the first one stays. *)
Fixpoint unique_after (kept : BandLevel.t) (l : list BandLevel.t) : list BandLevel.t :=
  match l with
  | [] => []
  | x :: l' =>
      if BandLevel.eqb kept x then unique_after kept l'
      else x :: unique_after x l'
  end.

Definition std_unique (l : list BandLevel.t) : list BandLevel.t :=
  match l with
  | [] => []
  | x :: l' => x :: unique_after x l'
  end.

(** [std::includes(first1, last1, first2, last2)] with [operator<]. The
    library's loop advances [first1] at every turn; it leaves with [false]
    when range 1 is exhausted or the head of range 2 is below the head of
    range 1, advances [first2] when neither head is below the other, and
    leaves with [true] once range 2 is exhausted. *)
Fixpoint std_includes (range1 range2 : list BandLevel.t) : bool :=
  match range2 with
  | [] => true
  | b :: rest2 =>
      match range1 with
      | [] => false
      | a :: rest1 =>
          if BandLevel.ltb b a then false
          else if negb (BandLevel.ltb a b) then std_includes rest1 rest2
          else std_includes rest1 range2
      end
  end.

(** The normalization of the expected band levels, lines 184 to 186. *)
Definition normalize (expectBl : list BandLevel.t) : list BandLevel.t :=
  std_unique (std_sort expectBl).

(* ------------------------------------------------------------------ *)
(** ** gtest checks: the log and the [check] monad *)

(** The [EXPECT_EQ] and [ASSERT_NE] checks of the file that carry no call. *)
Inductive expectation : Type :=
| effect_not_null        (* line 125 *)
| expect_is_specific     (* line 168 *)
| target_is_specific     (* line 169 *)
| expect_is_equalizer    (* line 173 *)
| target_is_equalizer    (* line 174 *)
| same_equalizer_tag.    (* line 178 *)

(** What a run leaves behind: the checks that failed, and the three checks
    of the driver with the values they were evaluated on. *)
Inductive event : Type :=
| failed (e : expectation)
| get_descriptor (expected actual : binder_exception_t)
| set_parameter (p : EffectParameter.t) (expected actual : binder_exception_t)
| get_parameter (id : EffectParameter.Id) (expected actual : binder_exception_t)
    (getParam : EffectParameter.t)
| expect_matches (expect getParam : EffectParameter.t) (verdict : bool).

Definition check (A : Type) : Type := (list event * result A)%type.

Definition check_ret {A} (a : A) : check A := ([], Returned a).

Definition check_bind {A B} (c : check A) (k : A -> check B) : check B :=
  match c with
  | (log1, Returned a) => let (log2, r) := k a in (log1 ++ log2, r)
  | (log1, Stopped f) => (log1, Stopped f)
  end.

Definition access {A} (r : result A) : check A := ([], r).

Definition EXPECT_EQ {A} (eqb : A -> A -> bool) (a b : A) (e : expectation)
  : check unit :=
  if eqb a b then ([], Returned tt) else ([failed e], Returned tt).

Declare Scope check_scope.
Delimit Scope check_scope with check.
Notation "x <- c ;; k" := (check_bind c (fun x => k))
  (at level 61, c at next level, right associativity) : check_scope.
Notation "c ;; k" := (check_bind c (fun _ => k))
  (at level 61, right associativity) : check_scope.

(* ------------------------------------------------------------------ *)
(** ** Parameter comparator *)

Definition isEqParameterExpected (expect target : EffectParameter.t) : check bool :=
  if EffectParameter.eqb expect target then check_ret true
  else
    (EXPECT_EQ EffectParameter.Tag_eqb
       (EffectParameter.getTag expect) EffectParameter.specific expect_is_specific ;;
     EXPECT_EQ EffectParameter.Tag_eqb
       (EffectParameter.getTag target) EffectParameter.specific target_is_specific ;;
     expectSpec <- access (EffectParameter.get_specific expect) ;;
     targetSpec <- access (EffectParameter.get_specific target) ;;
     EXPECT_EQ Specific.Tag_eqb
       (Specific.getTag expectSpec) Specific.equalizer expect_is_equalizer ;;
     EXPECT_EQ Specific.Tag_eqb
       (Specific.getTag targetSpec) Specific.equalizer target_is_equalizer ;;
     expectEq <- access (Specific.get_equalizer expectSpec) ;;
     targetEq <- access (Specific.get_equalizer targetSpec) ;;
     EXPECT_EQ Equalizer.Tag_eqb
       (Equalizer.getTag expectEq) (Equalizer.getTag targetEq) same_equalizer_tag ;;
     let eqTag := Equalizer.getTag targetEq in
     match eqTag with
     | Equalizer.bandLevels =>
         expectBl <- access (Equalizer.get_bandLevels expectEq) ;;
         let expectBl := std_sort expectBl in
         let expectBl := std_unique expectBl in
         targetBl <- access (Equalizer.get_bandLevels targetEq) ;;
         check_ret (std_includes targetBl expectBl)
     | Equalizer.preset =>
         expectPreset <- access (Equalizer.get_preset expectEq) ;;
         targetPreset <- access (Equalizer.get_preset targetEq) ;;
         check_ret (expectPreset =? targetPreset)
     | _ => check_ret false
     end)%check.

(** The parameter the driver builds from a setting, lines 135 to 138. *)
Definition specific_equalizer (eq : Equalizer.t) : EffectParameter.t :=
  EffectParameter.make_specific (Specific.make_equalizer eq).

(** The id the driver builds from a tag, lines 146 to 149. *)
Definition equalizer_id (tag : Equalizer.Tag) : EffectParameter.Id :=
  EffectParameter.equalizerTag (Equalizer.commonTag tag).

(* ------------------------------------------------------------------ *)
(** ** Capability model: the index ranges read from the descriptor *)

Section MinMaxElement.
Context {A : Type} (key : A -> Z).

(** [std::minmax_element(first, last, comp)] with [comp a b := key a < key b]:
    the positions of the first smallest and of the last largest element;
    on an empty range both are [last], position [0] of a range of length [0]. *)
Fixpoint minmax_scan (l : list A) (pos : nat) (lo hi : nat * Z) : nat * nat :=
  match l with
  | [] => (fst lo, fst hi)
  | x :: l' =>
      minmax_scan l' (S pos)
        (if key x <? snd lo then (pos, key x) else lo)
        (if key x <? snd hi then hi else (pos, key x))
  end.

Definition minmax_element (l : list A) : nat * nat :=
  match l with
  | [] => (0%nat, 0%nat)
  | x :: l' => minmax_scan l' 1%nat (0%nat, key x) (0%nat, key x)
  end.

(** [it->index] for the iterator at position [pos] of [l]. *)
Definition deref_key (l : list A) (pos : nat) : result Z :=
  match nth_error l pos with
  | Some x => Returned (key x)
  | None => Stopped end_iterator_read
  end.

(** The body shared by [setPresetIndexRange] and [setBandIndexRange]. *)
Definition index_range (l : list A) : result (Z * Z) :=
  let (min, max) := minmax_element l in
  (lo <- deref_key l min ;;
   hi <- deref_key l max ;;
   Returned (lo, hi))%result.

End MinMaxElement.

Definition setPresetIndexRange (cap : Equalizer.Capability) : result (Z * Z) :=
  index_range Preset.index (Equalizer.presets cap).

Definition setBandIndexRange (cap : Equalizer.Capability) : result (Z * Z) :=
  index_range BandFrequency.index (Equalizer.bandFrequencies cap).

(** The [Capability] union of the descriptor and the [Descriptor] itself,
    reduced to the capability it carries. *)
Module Capability.
Inductive t : Type :=
| make_equalizer (cap : Equalizer.Capability)
| make_other (which : nat) (payload : Z).

Definition get_equalizer (c : t) : result Equalizer.Capability :=
  match c with
  | make_equalizer cap => Returned cap
  | make_other _ _ => Stopped bad_union_access
  end.
End Capability.

Record Descriptor : Type := { capability : Capability.t }.

(* ------------------------------------------------------------------ *)
(** ** The effect service and the scenario driver *)

(** [IEffect], the remote interface the test drives: each call takes the
    state of the service and gives its next state, the binder status and
    the value left in the out-parameter. *)
Class IEffect (E : Type) : Type :=
  { getDescriptor : E -> E * (binder_exception_t * Descriptor);
    setParameter : E -> EffectParameter.t -> E * binder_exception_t;
    getParameter : E -> EffectParameter.Id
                   -> E * (binder_exception_t * EffectParameter.t) }.

(** Checks threaded through the state of the service. *)
Definition run (E A : Type) : Type := E -> E * check A.

Definition run_ret {E A} (a : A) : run E A := fun eff => (eff, check_ret a).

Definition run_bind {E A B} (c : run E A) (k : A -> run E B) : run E B :=
  fun eff =>
    match c eff with
    | (eff1, (log1, Returned a)) =>
        match k a eff1 with
        | (eff2, (log2, r)) => (eff2, (log1 ++ log2, r))
        end
    | (eff1, (log1, Stopped f)) => (eff1, (log1, Stopped f))
    end.

Definition lift {E A} (c : check A) : run E A := fun eff => (eff, c).

Definition emit {E} (ev : event) : run E unit :=
  fun eff => (eff, ([ev], Returned tt)).

Definition call {E A} (f : E -> E * A) : run E A :=
  fun eff => let (eff1, a) := f eff in (eff1, check_ret a).

Declare Scope run_scope.
Delimit Scope run_scope with run.
Notation "x <- c ;; k" := (run_bind c (fun x => k))
  (at level 61, c at next level, right associativity) : run_scope.
Notation "c ;; k" := (run_bind c (fun _ => k))
  (at level 61, right associativity) : run_scope.

(** The range-based [for] over a vector. *)
Fixpoint for_each {E X} (body : X -> run E unit) (l : list X) : run E unit :=
  match l with
  | [] => run_ret tt
  | x :: l' => (body x ;; for_each body l')%run
  end.

Section Driver.
Context {E : Type} `{IEffect E}.

(** [setTagRange]: [ASSERT_STATUS] leaves the function when the descriptor
    could not be read. *)
Definition setTagRange (fx : EqualizerTest) : run E EqualizerTest :=
  (ret <- call getDescriptor ;;
   emit (get_descriptor EX_NONE (fst ret)) ;;
   if fst ret =? EX_NONE then
     eqCap <- lift (access (Capability.get_equalizer (capability (snd ret)))) ;;
     presetIndex <- lift (access (setPresetIndexRange eqCap)) ;;
     bandIndex <- lift (access (setBandIndexRange eqCap)) ;;
     run_ret {| mPresetIndex := presetIndex;
                mBandIndex := bandIndex;
                mBandLevel := mBandLevel fx;
                mTags := mTags fx |}
   else run_ret fx)%run.

(** One turn of the loop of [SetAndGetEqualizerParameters]. *)
Definition scenario (fx : EqualizerTest) (it : Equalizer.Tag * Equalizer.t)
  : run E unit :=
  let tag := fst it in
  let eq := snd it in
  (valid <- lift (access (isTagInRange fx (fst it) (snd it))) ;;
   let expected := if valid : bool then EX_NONE else EX_ILLEGAL_ARGUMENT in
   let expectParam := specific_equalizer eq in
   status <- call (fun eff => setParameter eff expectParam) ;;
   emit (set_parameter expectParam expected status) ;;
   if expected =? EX_NONE then
     let id := equalizer_id tag in
     got <- call (fun eff => getParameter eff id) ;;
     emit (get_parameter id expected (fst got) (snd got)) ;;
     verdict <- lift (isEqParameterExpected expectParam (snd got)) ;;
     emit (expect_matches expectParam (snd got) verdict)
   else run_ret tt)%run.

(** [SetAndGetEqualizerParameters]; [mEffect] is [None] for a null pointer,
    on which [ASSERT_NE] leaves the function. *)
Definition SetAndGetEqualizerParameters (fx : EqualizerTest) (mEffect : option E)
  : option E * check unit :=
  match mEffect with
  | None => (None, ([failed effect_not_null], Returned tt))
  | Some eff =>
      let (eff', c) := for_each (scenario fx) (mTags fx) eff in (Some eff', c)
  end.

(** *** The test bodies *)

Definition SetAndGetPresetOutOfLowerBound (fx : EqualizerTest) :=
  SetAndGetEqualizerParameters (addPresetParam fx (snd (mPresetIndex fx) - 1)).






Definition SetAndGetBandOutOfUpperBound (fx : EqualizerTest) :=
  SetAndGetEqualizerParameters
    (addBandLevelsParam fx
       [BandLevel.mk (snd (mBandIndex fx) + 1) (mBandLevel fx)]).



Definition SetAndGetBandInBound (fx : EqualizerTest) :=
  SetAndGetEqualizerParameters
    (addBandLevelsParam fx
       [BandLevel.mk (Z.shiftr (fst (mBandIndex fx) + snd (mBandIndex fx)) 1)
          (mBandLevel fx)]).

Definition SetAndGetMultiBands (fx : EqualizerTest) :=
  SetAndGetEqualizerParameters
    (addBandLevelsParam (addPresetParam fx (fst (mPresetIndex fx)))
       [BandLevel.mk (fst (mBandIndex fx)) (mBandLevel fx);
        BandLevel.mk (snd (mBandIndex fx)) (mBandLevel fx);
        BandLevel.mk (Z.shiftr (fst (mBandIndex fx) + snd (mBandIndex fx)) 1)
          (mBandLevel fx)]).


End Driver.

(* ------------------------------------------------------------------ *)
(** ** A reference service, to run the driver on *)

(** An effect with presets [0..9] and bands [0..4]: it keeps the preset and
    one level per band, rejects an index outside these ranges, and reports
    the bands in ascending index order. *)
Module ReferenceEffect.
Record state : Type := { current_preset : Z; levels : list BandLevel.t }.

Definition initial : state :=
  {| current_preset := 0;
     levels := map (fun i => BandLevel.mk i 0) [0; 1; 2; 3; 4] |}.

Definition store (b : BandLevel.t) (l : list BandLevel.t) : list BandLevel.t :=
  map (fun x => if BandLevel.index x =? BandLevel.index b then b else x) l.

Definition accepts (b : BandLevel.t) : bool :=
  (0 <=? BandLevel.index b) && (BandLevel.index b <=? 4).

Definition set (s : state) (p : EffectParameter.t) : state * binder_exception_t :=
  match p with
  | EffectParameter.make_specific
      (Specific.make_equalizer (Equalizer.make_preset i)) =>
      if (0 <=? i) && (i <=? 9)
      then ({| current_preset := i; levels := levels s |}, EX_NONE)
      else (s, EX_ILLEGAL_ARGUMENT)
  | EffectParameter.make_specific
      (Specific.make_equalizer (Equalizer.make_bandLevels l)) =>
      if forallb accepts l
      then ({| current_preset := current_preset s;
               levels := fold_left (fun acc b => store b acc) l (levels s) |},
            EX_NONE)
      else (s, EX_ILLEGAL_ARGUMENT)
  | _ => (s, EX_ILLEGAL_ARGUMENT)
  end.

Definition get (s : state) (id : EffectParameter.Id)
  : state * (binder_exception_t * EffectParameter.t) :=
  match id with
  | EffectParameter.equalizerTag (Equalizer.commonTag Equalizer.preset) =>
      (s, (EX_NONE, specific_equalizer (Equalizer.make_preset (current_preset s))))
  | EffectParameter.equalizerTag (Equalizer.commonTag Equalizer.bandLevels) =>
      (s, (EX_NONE, specific_equalizer (Equalizer.make_bandLevels (levels s))))
  | _ => (s, (EX_ILLEGAL_ARGUMENT, EffectParameter.make_other 0 0))
  end.

Definition descriptor : Descriptor :=
  {| capability :=
       Capability.make_equalizer
         {| Equalizer.bandFrequencies :=
              map (fun i => BandFrequency.mk i (i * 1000) (i * 1000 + 999))
                [0; 1; 2; 3; 4];
            Equalizer.presets :=
              map (fun i => Preset.mk i 0) [0; 1; 2; 3; 4; 5; 6; 7; 8; 9] |} |}.

#[global] Instance effect : IEffect state :=
  {| getDescriptor := fun s => (s, (EX_NONE, descriptor));
     setParameter := set;
     getParameter := get |}.

(** The fixture once [SetUp] has run against this service. *)
Definition fixture (bandLevel : Z) : EqualizerTest :=
  {| mPresetIndex := (0, 9); mBandIndex := (0, 4);
     mBandLevel := bandLevel; mTags := [] |}.
End ReferenceEffect.

(** A service that accepts every write and fails every read, leaving a
    parameter that is not [specific] in the out-parameter. *)
Definition silent_effect : IEffect unit :=
  {| getDescriptor := fun s =>
       (s, (EX_ILLEGAL_ARGUMENT, {| capability := Capability.make_other 0 0 |}));
     setParameter := fun s _ => (s, EX_NONE);
     getParameter := fun s _ =>
       (s, (EX_ILLEGAL_ARGUMENT, EffectParameter.make_other 0 0)) |}.

(* ------------------------------------------------------------------ *)
(** ** Vocabulary of the statements *)

(** Ascending by index, the order [std::sort] is asked for. *)
Definition index_le (a b : BandLevel.t) : Prop :=
  BandLevel.index a <= BandLevel.index b.

Definition index_lt (a b : BandLevel.t) : Prop :=
  BandLevel.index a < BandLevel.index b.

(** The order of [operator<], on [(index, levelMb)]. *)
Definition pair_lt (a b : BandLevel.t) : Prop :=
  BandLevel.index a < BandLevel.index b
  \/ (BandLevel.index a = BandLevel.index b
      /\ BandLevel.levelMb a < BandLevel.levelMb b).

Definition pair_le (a b : BandLevel.t) : Prop := ~ pair_lt b a.

(** No band is given two different levels. *)
Definition one_level_per_index (l : list BandLevel.t) : Prop :=
  forall a b, In a l -> In b l ->
    BandLevel.index a = BandLevel.index b ->
    BandLevel.levelMb a = BandLevel.levelMb b.

(** The normalization in the words of the specification: an entry is
    dropped when an earlier entry has its index, the first one stays. *)
Fixpoint drop_seen_indices (seen : list Z) (l : list BandLevel.t) : list BandLevel.t :=
  match l with
  | [] => []
  | x :: l' =>
      if existsb (Z.eqb (BandLevel.index x)) seen
      then drop_seen_indices seen l'
      else x :: drop_seen_indices (BandLevel.index x :: seen) l'
  end.

Definition dedup_by_index (l : list BandLevel.t) : list BandLevel.t :=
  drop_seen_indices [] l.

(** A band index inside the range of the fixture. *)
Definition band_in_range (fx : EqualizerTest) (b : BandLevel.t) : Prop :=
  fst (mBandIndex fx) <= BandLevel.index b <= snd (mBandIndex fx).

(** The status the driver expects of a write, line 132. *)
Definition expected_status (valid : bool) : binder_exception_t :=
  if valid then EX_NONE else EX_ILLEGAL_ARGUMENT.

(** The log of a run of the driver, and whether the run reached its end. *)
Definition log_of {S A} (r : S * check A) : list event := fst (snd r).
Definition completed {S} (r : option S * check unit) : Prop :=
  fst r <> None /\ snd (snd r) = Returned tt.

(** What the scan of [minmax_element] has established about the part
    [done] of the list [full] it has walked over. *)
Definition scan_invariant {A : Type} (key : A -> Z) (full done : list A)
    (lo hi : nat * Z) : Prop :=
  (exists x, nth_error full (fst lo) = Some x /\ key x = snd lo)
  /\ (exists x, nth_error full (fst hi) = Some x /\ key x = snd hi)
  /\ Forall (fun y => snd lo <= key y <= snd hi) done.

(** Where an event of the log may come from, given the scenarios [tags]. *)
Definition justified (fx : EqualizerTest) (tags : list (Equalizer.Tag * Equalizer.t)) (ev : event) : Prop :=
  match ev with
  | set_parameter p e _ =>
      exists tag eq valid,
        In (tag, eq) tags /\ p = specific_equalizer eq
        /\ isTagInRange fx tag eq = Returned valid /\ e = expected_status valid
  | get_parameter id e _ _ =>
      exists tag eq,
        In (tag, eq) tags /\ id = equalizer_id tag /\ e = EX_NONE
        /\ isTagInRange fx tag eq = Returned true
  | expect_matches p g v =>
      exists tag eq,
        In (tag, eq) tags /\ p = specific_equalizer eq
        /\ isTagInRange fx tag eq = Returned true
        /\ snd (isEqParameterExpected p g) = Returned v
  | failed e =>
      exists tag eq g,
        In (tag, eq) tags /\ isTagInRange fx tag eq = Returned true
        /\ In (failed e) (fst (isEqParameterExpected (specific_equalizer eq) g))
  | get_descriptor _ _ => False
  end.

(** What a log holds for a scenario that was run to its end. *)
Definition exercised (fx : EqualizerTest) (log : list event) (it : Equalizer.Tag * Equalizer.t) : Prop :=
  exists valid status,
    isTagInRange fx (fst it) (snd it) = Returned valid
    /\ In (set_parameter (specific_equalizer (snd it)) (expected_status valid) status) log
    /\ (valid = true ->
        exists status' getParam verdict,
          In (get_parameter (equalizer_id (fst it)) EX_NONE status' getParam) log
          /\ In (expect_matches (specific_equalizer (snd it)) getParam verdict) log).

(** The invariant of [mTags]: every entry pairs a setting with the tag
    that setting holds, as [addPresetParam] and [addBandLevelsParam] build
    them. *)
Definition well_tagged (fx : EqualizerTest) : Prop :=
  Forall (fun it => fst it = Equalizer.getTag (snd it)) (mTags fx).

(** The parameters written by a run, in the order of the writes. *)
Fixpoint writes (log : list event) : list EffectParameter.t :=
  match log with
  | [] => []
  | set_parameter p _ _ :: rest => p :: writes rest
  | _ :: rest => writes rest
  end.

(** The parameters a run had to write: one per scenario, in the order the
    scenarios were added. *)
Definition scheduled (fx : EqualizerTest) : list EffectParameter.t :=
  map (fun it => specific_equalizer (snd it)) (mTags fx).


(* ------------------------------------------------------------------ *)
(** ** Lemmas on band levels and their two orders *)

Lemma BandLevel_eqb_eq (a b : BandLevel.t) : BandLevel.eqb a b = true <-> a = b.
Proof.
  destruct a as [i l], b as [j m]; unfold BandLevel.eqb; simpl.
  rewrite andb_true_iff, !Z.eqb_eq. split.
  - intros [-> ->]; reflexivity.
  - intros Heq; injection Heq; auto.
Qed.

Lemma BandLevel_eqb_refl (a : BandLevel.t) : BandLevel.eqb a a = true.
Proof. apply BandLevel_eqb_eq; reflexivity. Qed.

Lemma BandLevel_ltb_lt (a b : BandLevel.t) : BandLevel.ltb a b = true <-> pair_lt a b.
Proof.
  unfold BandLevel.ltb, pair_lt.
  rewrite orb_true_iff, andb_true_iff, negb_true_iff, Z.ltb_nlt, !Z.ltb_lt.
  lia.
Qed.

Lemma BandLevel_ltb_nlt (a b : BandLevel.t) : BandLevel.ltb a b = false <-> ~ pair_lt a b.
Proof.
  rewrite <- BandLevel_ltb_lt. destruct (BandLevel.ltb a b); split; congruence.
Qed.

Lemma pair_lt_irrefl (a : BandLevel.t) : ~ pair_lt a a.
Proof. unfold pair_lt; lia. Qed.

Lemma pair_lt_trans (a b c : BandLevel.t) : pair_lt a b -> pair_lt b c -> pair_lt a c.
Proof. unfold pair_lt; lia. Qed.

Lemma pair_le_lt_trans (a b c : BandLevel.t) : pair_le a b -> pair_lt b c -> pair_lt a c.
Proof. unfold pair_le, pair_lt; lia. Qed.

Lemma pair_le_trans (a b c : BandLevel.t) : pair_le a b -> pair_le b c -> pair_le a c.
Proof. unfold pair_le, pair_lt; lia. Qed.

Lemma pair_trichotomy (a b : BandLevel.t) : ~ pair_lt a b -> ~ pair_lt b a -> a = b.
Proof.
  destruct a as [i l], b as [j m]; unfold pair_lt; simpl; intros H1 H2.
  assert (i = j) by lia. assert (l = m) by lia. subst; reflexivity.
Qed.

Lemma index_lt_pair_lt (a b : BandLevel.t) : index_lt a b -> pair_lt a b.
Proof. unfold index_lt, pair_lt; lia. Qed.

Lemma one_level_same_index (l : list BandLevel.t) (a b : BandLevel.t) :
  one_level_per_index l -> In a l -> In b l ->
  BandLevel.index a = BandLevel.index b -> a = b.
Proof.
  intros Hone Ha Hb Hidx. specialize (Hone a b Ha Hb Hidx).
  destruct a, b; simpl in *; subst; reflexivity.
Qed.

Lemma one_level_incl (l1 l2 : list BandLevel.t) :
  incl l1 l2 -> one_level_per_index l2 -> one_level_per_index l1.
Proof. intros Hincl Hone a b Ha Hb; apply Hone; auto. Qed.

#[local] Instance index_le_trans : RelationClasses.Transitive index_le.
Proof. intros a b c; unfold index_le; lia. Qed.

#[local] Instance index_lt_trans : RelationClasses.Transitive index_lt.
Proof. intros a b c; unfold index_lt; lia. Qed.

#[local] Instance pair_le_transitive : RelationClasses.Transitive pair_le.
Proof. intros a b c; apply pair_le_trans. Qed.

(* ------------------------------------------------------------------ *)
(** ** [std_sort] meets the contract of [std::sort] *)

Lemma insert_sorted_perm (x : BandLevel.t) (l : list BandLevel.t) :
  Permutation (x :: l) (insert_sorted x l).
Proof.
  induction l as [|y l IH]; simpl.
  - apply Permutation_refl.
  - destruct (comp_index y x).
    + eapply Permutation_trans; [apply perm_swap|]. apply perm_skip, IH.
    + apply Permutation_refl.
Qed.

Lemma std_sort_perm (l : list BandLevel.t) : Permutation l (std_sort l).
Proof.
  induction l as [|x l IH]; simpl.
  - constructor.
  - eapply Permutation_trans; [apply perm_skip, IH|]. apply insert_sorted_perm.
Qed.

Lemma insert_sorted_sorted (x : BandLevel.t) (l : list BandLevel.t) :
  StronglySorted index_le l -> StronglySorted index_le (insert_sorted x l).
Proof.
  induction l as [|y l IH]; intros Hs; simpl.
  - repeat constructor.
  - inversion Hs as [|? ? Hl Hy]; subst.
    unfold comp_index. destruct (Z.ltb_spec (BandLevel.index y) (BandLevel.index x)).
    + constructor; [apply IH, Hl|].
      eapply Permutation_Forall; [apply insert_sorted_perm|].
      constructor; [unfold index_le; lia | exact Hy].
    + constructor; [exact Hs|].
      constructor; [unfold index_le; lia|].
      eapply Forall_impl; [|exact Hy]. unfold index_le; intros; lia.
Qed.

Lemma std_sort_sorted (l : list BandLevel.t) : StronglySorted index_le (std_sort l).
Proof.
  induction l as [|x l IH]; simpl; [constructor | apply insert_sorted_sorted, IH].
Qed.

Lemma std_sort_In (l : list BandLevel.t) (b : BandLevel.t) :
  In b (std_sort l) <-> In b l.
Proof.
  split; apply Permutation_in; [apply Permutation_sym|]; apply std_sort_perm.
Qed.

(* ------------------------------------------------------------------ *)
(** ** [std_unique] *)

Lemma unique_after_In (k b : BandLevel.t) (l : list BandLevel.t) :
  In b (unique_after k l) -> In b l.
Proof.
  revert k; induction l as [|x l IH]; intros k; simpl; [tauto|].
  destruct (BandLevel.eqb k x); simpl; intros Hin.
  - right; eapply IH; eassumption.
  - destruct Hin as [->|Hin]; [left; reflexivity | right; eapply IH; eassumption].
Qed.

Lemma unique_after_keeps (k b : BandLevel.t) (l : list BandLevel.t) :
  In b l -> b = k \/ In b (unique_after k l).
Proof.
  revert k; induction l as [|x l IH]; intros k; simpl; [tauto|].
  destruct (BandLevel.eqb k x) eqn:Hkx; intros [<-|Hin].
  - left; symmetry; apply BandLevel_eqb_eq; exact Hkx.
  - apply IH, Hin.
  - right; left; reflexivity.
  - destruct (IH x Hin) as [->|Hin']; right; simpl; auto.
Qed.

Lemma std_unique_In (l : list BandLevel.t) (b : BandLevel.t) :
  In b (std_unique l) <-> In b l.
Proof.
  destruct l as [|x l]; simpl; [tauto|]. split.
  - intros [->|Hin]; [left; reflexivity | right; eapply unique_after_In; eassumption].
  - intros [->|Hin]; [left; reflexivity|].
    destruct (unique_after_keeps x b l Hin) as [->|Hin']; auto.
Qed.

Lemma unique_after_Forall (P : BandLevel.t -> Prop) (k : BandLevel.t) (l : list BandLevel.t) :
  Forall P l -> Forall P (unique_after k l).
Proof.
  rewrite !Forall_forall; intros HP b Hin; eapply HP, unique_after_In; eassumption.
Qed.

Lemma unique_after_sorted (R : BandLevel.t -> BandLevel.t -> Prop)
    (k : BandLevel.t) (l : list BandLevel.t) :
  StronglySorted R l -> StronglySorted R (unique_after k l).
Proof.
  revert k; induction l as [|x l IH]; intros k Hs; simpl; [constructor|].
  inversion Hs as [|? ? Hl Hx]; subst.
  destruct (BandLevel.eqb k x); [apply IH, Hl|].
  constructor; [apply IH, Hl | apply unique_after_Forall, Hx].
Qed.

Lemma std_unique_sorted (R : BandLevel.t -> BandLevel.t -> Prop) (l : list BandLevel.t) :
  StronglySorted R l -> StronglySorted R (std_unique l).
Proof.
  destruct l as [|x l]; simpl; [constructor|]. intros Hs.
  inversion Hs as [|? ? Hl Hx]; subst.
  constructor; [apply unique_after_sorted, Hl | apply unique_after_Forall, Hx].
Qed.

(** No entry of the result equals the entry before it. *)
Lemma unique_after_no_repeat (k : BandLevel.t) (l : list BandLevel.t) :
  Sorted (fun a b => a <> b) (k :: unique_after k l).
Proof.
  revert k; induction l as [|x l IH]; intros k; simpl.
  - repeat constructor.
  - destruct (BandLevel.eqb k x) eqn:Hkx; [apply IH|].
    constructor; [apply IH|]. constructor. intros ->.
    rewrite BandLevel_eqb_refl in Hkx; discriminate.
Qed.

(** Below a band that carries one level, equal index means equal entry, so
    what survives [std::unique] climbs strictly. *)
Lemma unique_after_strict (k : BandLevel.t) (l : list BandLevel.t) :
  StronglySorted index_le (k :: l) -> one_level_per_index (k :: l) ->
  StronglySorted index_lt (k :: unique_after k l).
Proof.
  revert k; induction l as [|x l IH]; intros k Hs Hone; simpl.
  - repeat constructor.
  - inversion Hs as [|? ? Hxl Hk]; subst.
    inversion Hxl as [|? ? Hl Hx]; subst.
    inversion Hk as [|? ? Hkx Hkl]; subst.
    destruct (BandLevel.eqb k x) eqn:Heq.
    + apply IH.
      * constructor; assumption.
      * eapply one_level_incl; [|exact Hone].
        intros b [<-|Hb]; simpl; auto.
    + assert (Hlt : index_lt k x).
      { unfold index_le in Hkx. unfold index_lt.
        destruct (Z.eq_dec (BandLevel.index k) (BandLevel.index x)) as [Hi|Hi]; [|lia].
        exfalso. assert (k = x) as ->.
        { apply (one_level_same_index _ _ _ Hone); simpl; auto. }
        rewrite BandLevel_eqb_refl in Heq; discriminate. }
      assert (Hrec : StronglySorted index_lt (x :: unique_after x l)).
      { apply IH; [exact Hxl|].
        eapply one_level_incl; [|exact Hone]. intros b Hb; simpl; auto. }
      constructor; [exact Hrec|].
      inversion Hrec as [|? ? _ Hxs]; subst.
      constructor; [exact Hlt|].
      eapply Forall_impl; [|exact Hxs].
      intros b Hb; unfold index_lt in *; lia.
Qed.

Lemma unique_after_id (k : BandLevel.t) (l : list BandLevel.t) :
  StronglySorted index_lt (k :: l) -> unique_after k l = l.
Proof.
  revert k; induction l as [|x l IH]; intros k Hs; simpl; [reflexivity|].
  inversion Hs as [|? ? Hxl Hk]; subst.
  inversion Hk as [|? ? Hkx _]; subst.
  destruct (BandLevel.eqb k x) eqn:Heq.
  - apply BandLevel_eqb_eq in Heq; subst. unfold index_lt in Hkx; lia.
  - f_equal; apply IH, Hxl.
Qed.

Lemma unique_after_drop_seen (k : BandLevel.t) (seen : list Z) (l : list BandLevel.t) :
  StronglySorted index_le (k :: l) -> one_level_per_index (k :: l) ->
  Forall (fun z => z <= BandLevel.index k) seen -> In (BandLevel.index k) seen ->
  unique_after k l = drop_seen_indices seen l.
Proof.
  revert k seen; induction l as [|x l IH]; intros k seen Hs Hone Hseen Hk;
    simpl; [reflexivity|].
  inversion Hs as [|? ? Hxl Hkl]; subst.
  inversion Hxl as [|? ? Hl Hx]; subst.
  inversion Hkl as [|? ? Hkx Hkl']; subst.
  destruct (BandLevel.eqb k x) eqn:Heq.
  - apply BandLevel_eqb_eq in Heq; subst x.
    replace (existsb (Z.eqb (BandLevel.index k)) seen) with true.
    + apply IH; [constructor; assumption | | exact Hseen | exact Hk].
      eapply one_level_incl; [|exact Hone]. intros b [<-|Hb]; simpl; auto.
    + symmetry; apply existsb_exists. exists (BandLevel.index k).
      split; [exact Hk | apply Z.eqb_refl].
  - assert (Hlt : BandLevel.index k < BandLevel.index x).
    { unfold index_le in Hkx.
      destruct (Z.eq_dec (BandLevel.index k) (BandLevel.index x)) as [Hi|Hi]; [|lia].
      exfalso. assert (k = x) as ->.
      { apply (one_level_same_index _ _ _ Hone); simpl; auto. }
      rewrite BandLevel_eqb_refl in Heq; discriminate. }
    replace (existsb (Z.eqb (BandLevel.index x)) seen) with false.
    + f_equal. apply IH.
      * exact Hxl.
      * eapply one_level_incl; [|exact Hone]. intros b Hb; simpl; auto.
      * constructor; [lia|]. eapply Forall_impl; [|exact Hseen].
        simpl; intros; lia.
      * left; reflexivity.
    + symmetry. destruct (existsb (Z.eqb (BandLevel.index x)) seen) eqn:Hex; [|reflexivity].
      apply existsb_exists in Hex. destruct Hex as [z [Hz Hzx]].
      apply Z.eqb_eq in Hzx. rewrite Forall_forall in Hseen.
      specialize (Hseen z Hz). simpl in Hseen. lia.
Qed.

(* ------------------------------------------------------------------ *)
(** ** [std_includes] on ascending ranges *)

Lemma std_includes_incl (t n : list BandLevel.t) :
  StronglySorted pair_le t -> StronglySorted pair_lt n ->
  (std_includes t n = true <-> incl n t).
Proof.
  revert n; induction t as [|a t IH]; intros n Ht Hn.
  - destruct n as [|b n]; simpl.
    + split; [intros _ x [] | reflexivity].
    + split; [discriminate|]. intros Hincl. destruct (Hincl b); simpl; auto.
  - destruct n as [|b n]; simpl.
    + split; [intros _ x [] | reflexivity].
    + inversion Ht as [|? ? Ht' Ha]; subst.
      inversion Hn as [|? ? Hn' Hb]; subst.
      rewrite Forall_forall in Ha, Hb.
      destruct (BandLevel.ltb b a) eqn:Hba.
      * (* b is below every entry of range 1 *)
        apply BandLevel_ltb_lt in Hba.
        split; [discriminate|]. intros Hincl. exfalso.
        destruct (Hincl b (or_introl eq_refl)) as [<-|Hin].
        -- exact (pair_lt_irrefl _ Hba).
        -- exact (Ha b Hin Hba).
      * apply BandLevel_ltb_nlt in Hba.
        destruct (BandLevel.ltb a b) eqn:Hab; simpl.
        -- (* a is below b: a serves no entry of range 2 *)
           apply BandLevel_ltb_lt in Hab.
           rewrite (IH (b :: n) Ht' Hn). split; intros Hincl x Hx.
           ++ right; apply Hincl, Hx.
           ++ destruct (Hincl x Hx) as [<-|Hin]; [|exact Hin]. exfalso.
              destruct Hx as [<-|Hx]; [exact (pair_lt_irrefl _ Hab)|].
              exact (pair_lt_irrefl _ (pair_lt_trans _ _ _ Hab (Hb _ Hx))).
        -- (* a = b *)
           apply BandLevel_ltb_nlt in Hab.
           assert (a = b) by (apply pair_trichotomy; assumption). subst b.
           rewrite (IH n Ht' Hn'). split; intros Hincl x Hx.
           ++ destruct Hx as [<-|Hx]; [left; reflexivity | right; apply Hincl, Hx].
           ++ destruct (Hincl x (or_intror Hx)) as [<-|Hin]; [|exact Hin].
              exfalso; exact (pair_lt_irrefl _ (Hb _ Hx)).
Qed.

(* ------------------------------------------------------------------ *)
(** ** [normalize] *)

Lemma normalize_In (l : list BandLevel.t) (b : BandLevel.t) :
  In b (normalize l) <-> In b l.
Proof. unfold normalize; rewrite std_unique_In; apply std_sort_In. Qed.

Lemma normalize_sorted (l : list BandLevel.t) : StronglySorted index_le (normalize l).
Proof. apply std_unique_sorted, std_sort_sorted. Qed.

Lemma normalize_no_repeat (l : list BandLevel.t) :
  Sorted (fun a b => a <> b) (normalize l).
Proof.
  unfold normalize. destruct (std_sort l) as [|k s]; simpl;
    [constructor | apply unique_after_no_repeat].
Qed.

Lemma std_sort_one_level (l : list BandLevel.t) :
  one_level_per_index l -> one_level_per_index (std_sort l).
Proof.
  apply one_level_incl. intros b; apply std_sort_In.
Qed.

Lemma normalize_strict (l : list BandLevel.t) :
  one_level_per_index l -> StronglySorted index_lt (normalize l).
Proof.
  intros Hone. apply std_sort_one_level in Hone.
  pose proof (std_sort_sorted l) as Hs. unfold normalize.
  destruct (std_sort l) as [|k s]; simpl;
    [constructor | apply unique_after_strict; assumption].
Qed.

Lemma normalize_dedup (l : list BandLevel.t) :
  one_level_per_index l -> normalize l = dedup_by_index (std_sort l).
Proof.
  intros Hone. apply std_sort_one_level in Hone.
  pose proof (std_sort_sorted l) as Hs. unfold normalize, dedup_by_index.
  destruct (std_sort l) as [|k s]; simpl; [reflexivity|].
  f_equal. apply unique_after_drop_seen; auto.
  - constructor; [lia | constructor].
  - left; reflexivity.
Qed.

Lemma strict_NoDup_index (l : list BandLevel.t) :
  StronglySorted index_lt l -> NoDup (map BandLevel.index l).
Proof.
  induction 1 as [|a l Hl IH Ha]; simpl; constructor; [|exact IH].
  rewrite in_map_iff. intros [b [Hidx Hb]].
  rewrite Forall_forall in Ha. specialize (Ha b Hb). unfold index_lt in Ha. lia.
Qed.

Lemma sorted_NoDup_strict (l : list BandLevel.t) :
  StronglySorted index_le l -> NoDup (map BandLevel.index l) ->
  StronglySorted index_lt l.
Proof.
  induction 1 as [|a l Hl IH Ha]; simpl; intros Hnd; [constructor|].
  inversion Hnd as [|? ? Hnotin Hnd']; subst.
  constructor; [apply IH, Hnd'|].
  rewrite Forall_forall in *. intros b Hb. specialize (Ha b Hb).
  unfold index_le in Ha; unfold index_lt.
  assert (BandLevel.index a <> BandLevel.index b); [|lia].
  intros Heq. apply Hnotin. rewrite Heq. apply in_map, Hb.
Qed.

(** An ascending arrangement without repeated index is the only one. *)
Lemma strict_perm_eq (l1 l2 : list BandLevel.t) :
  StronglySorted index_lt l1 -> StronglySorted index_lt l2 ->
  Permutation l1 l2 -> l1 = l2.
Proof.
  revert l2; induction l1 as [|a l1 IH]; intros l2 H1 H2 Hp.
  - apply Permutation_nil in Hp; congruence.
  - destruct l2 as [|b l2].
    + apply Permutation_sym, Permutation_nil in Hp; discriminate.
    + inversion H1 as [|? ? H1' Ha]; subst.
      inversion H2 as [|? ? H2' Hb]; subst.
      rewrite Forall_forall in Ha, Hb.
      assert (a = b) as ->.
      { pose proof (Permutation_in a Hp (or_introl eq_refl)) as Hain.
        pose proof (Permutation_in b (Permutation_sym Hp) (or_introl eq_refl)) as Hbin.
        destruct Hain as [->|Hain]; [reflexivity|].
        destruct Hbin as [->|Hbin]; [reflexivity|].
        specialize (Ha b Hbin). specialize (Hb a Hain).
        unfold index_lt in *; lia. }
      f_equal. apply IH; auto. eapply Permutation_cons_inv; eassumption.
Qed.

Lemma std_sort_id (l : list BandLevel.t) :
  StronglySorted index_lt l -> std_sort l = l.
Proof.
  intros Hl. symmetry. apply strict_perm_eq; [exact Hl | | apply std_sort_perm].
  apply sorted_NoDup_strict; [apply std_sort_sorted|].
  eapply Permutation_NoDup; [apply Permutation_map, std_sort_perm|].
  apply strict_NoDup_index, Hl.
Qed.

(* ------------------------------------------------------------------ *)
(** ** The comparator on two band-level parameters *)

Lemma levels_eqb_eq (l1 l2 : list BandLevel.t) :
  Equalizer.levels_eqb l1 l2 = true <-> l1 = l2.
Proof.
  revert l2; induction l1 as [|a l1 IH]; intros [|b l2]; simpl;
    try (split; [discriminate | congruence]); [tauto|].
  rewrite andb_true_iff, BandLevel_eqb_eq, IH. split.
  - intros [-> ->]; reflexivity.
  - intros Heq; injection Heq; auto.
Qed.

Lemma isEqParameterExpected_bandLevels (expectBl targetBl : list BandLevel.t) :
  isEqParameterExpected
    (specific_equalizer (Equalizer.make_bandLevels expectBl))
    (specific_equalizer (Equalizer.make_bandLevels targetBl))
  = ([], Returned (Equalizer.levels_eqb expectBl targetBl
                   || std_includes targetBl (normalize expectBl))).
Proof.
  unfold isEqParameterExpected; simpl.
  destruct (Equalizer.levels_eqb expectBl targetBl); reflexivity.
Qed.

Lemma isEqParameterExpected_preset (p q : Z) :
  isEqParameterExpected
    (specific_equalizer (Equalizer.make_preset p))
    (specific_equalizer (Equalizer.make_preset q))
  = ([], Returned (p =? q)).
Proof.
  unfold isEqParameterExpected; simpl.
  destruct (p =? q) eqn:Hpq; reflexivity.
Qed.

(* ================================================================== *)
(** * The comparator: band levels *)

(** C1, as stated, fails on a read-back that is not in ascending order:
    the write [{(3,-1)}] against the read-back [[(4,0); (3,-1)]]. The two
    parameters differ, every normalized expected entry is in the
    read-back, and the comparator answers [false]. *)
Lemma isEqParameterExpected_unsorted_readback :
  specific_equalizer (Equalizer.make_bandLevels [BandLevel.mk 3 (-1)])
    <> specific_equalizer
         (Equalizer.make_bandLevels [BandLevel.mk 4 0; BandLevel.mk 3 (-1)])
  /\ (forall b, In b (normalize [BandLevel.mk 3 (-1)]) ->
                In b [BandLevel.mk 4 0; BandLevel.mk 3 (-1)])
  /\ isEqParameterExpected
       (specific_equalizer (Equalizer.make_bandLevels [BandLevel.mk 3 (-1)]))
       (specific_equalizer
          (Equalizer.make_bandLevels [BandLevel.mk 4 0; BandLevel.mk 3 (-1)]))
     = ([], Returned false).
Proof.
  split; [discriminate|]. split; [|reflexivity].
  simpl. intros b [<-|[]]. right; left; reflexivity.
Qed.

(** The same verdict on an ascending read-back when the write gives band 1
    two levels: the comparator walks the expected entries in the order
    the sort left them, [(1,7)] before [(1,5)]. *)
Lemma isEqParameterExpected_two_levels :
  (forall b, In b (normalize [BandLevel.mk 1 7; BandLevel.mk 1 5]) ->
             In b [BandLevel.mk 1 5; BandLevel.mk 1 7])
  /\ isEqParameterExpected
       (specific_equalizer
          (Equalizer.make_bandLevels [BandLevel.mk 1 7; BandLevel.mk 1 5]))
       (specific_equalizer
          (Equalizer.make_bandLevels [BandLevel.mk 1 5; BandLevel.mk 1 7]))
     = ([], Returned false).
Proof.
  split; [|reflexivity]. simpl. intros b [<-|[<-|[]]]; auto.
Qed.

(** C1 (amended): when no band is given two levels by the write and the
    read-back lists its entries in ascending [(index, levelMb)] order, the
    comparator returns, records no failure, and its verdict is [true]
    exactly when every entry of the normalized expected list is an entry of
    the read-back, whatever other entries the read-back holds. *)
Theorem isEqParameterExpected_subset (expectBl targetBl : list BandLevel.t) :
  one_level_per_index expectBl ->
  Sorted pair_le targetBl ->
  exists verdict,
    isEqParameterExpected
      (specific_equalizer (Equalizer.make_bandLevels expectBl))
      (specific_equalizer (Equalizer.make_bandLevels targetBl))
    = ([], Returned verdict)
    /\ (verdict = true <->
        forall b, In b (normalize expectBl) -> In b targetBl).
Proof.
  intros Hone Hsorted.
  rewrite isEqParameterExpected_bandLevels. eexists; split; [reflexivity|].
  destruct (Equalizer.levels_eqb expectBl targetBl) eqn:Heq; simpl.
  - apply levels_eqb_eq in Heq; subst targetBl.
    split; [|reflexivity]. intros _ b; apply normalize_In.
  - apply std_includes_incl.
    + apply Sorted_StronglySorted; [exact pair_le_transitive | exact Hsorted].
    + eapply StronglySorted_ind with (P := StronglySorted pair_lt);
        [constructor | | exact (normalize_strict _ Hone)].
      intros a l _ IH Ha. constructor; [exact IH|].
      eapply Forall_impl; [|exact Ha]. intros b; apply index_lt_pair_lt.
Qed.

(** A run of the partial-update law of the specification: one band written,
    the full state read back in ascending order. *)
Lemma isEqParameterExpected_subset_witness :
  exists verdict,
    isEqParameterExpected
      (specific_equalizer (Equalizer.make_bandLevels [BandLevel.mk 3 (-1)]))
      (specific_equalizer
         (Equalizer.make_bandLevels
            [BandLevel.mk 0 0; BandLevel.mk 1 0; BandLevel.mk 2 0;
             BandLevel.mk 3 (-1); BandLevel.mk 4 0]))
    = ([], Returned verdict)
    /\ (verdict = true <->
        forall b, In b (normalize [BandLevel.mk 3 (-1)]) ->
                  In b [BandLevel.mk 0 0; BandLevel.mk 1 0; BandLevel.mk 2 0;
                        BandLevel.mk 3 (-1); BandLevel.mk 4 0]).
Proof.
  apply (isEqParameterExpected_subset
           [BandLevel.mk 3 (-1)]
           [BandLevel.mk 0 0; BandLevel.mk 1 0; BandLevel.mk 2 0;
            BandLevel.mk 3 (-1); BandLevel.mk 4 0]).
  - intros a b [<-|[]] [<-|[]] _; reflexivity.
  - repeat constructor; unfold pair_le, pair_lt; simpl; lia.
Defined.

(* ================================================================== *)
(** * The comparator: two different variants *)

(** C2, as stated, fails: with a preset expected and band levels observed
    the comparator does not return [false]; it records the failed
    expectation on the tags and stops at the read of the expected value
    through the tag of the observed one. *)
Lemma isEqParameterExpected_preset_against_bandLevels :
  isEqParameterExpected
    (specific_equalizer (Equalizer.make_preset 1))
    (specific_equalizer (Equalizer.make_bandLevels []))
  = ([failed same_equalizer_tag], Stopped bad_union_access)
  /\ snd (isEqParameterExpected
            (specific_equalizer (Equalizer.make_preset 1))
            (specific_equalizer (Equalizer.make_bandLevels [])))
     <> Returned false.
Proof. split; [reflexivity | discriminate]. Qed.

(** C2 (amended): when one parameter holds a preset and the other band
    levels, whichever is expected, the comparator never returns [true] and
    the log holds the failed expectation that both carry the same tag. *)
Theorem isEqParameterExpected_different_variants (p : Z) (l : list BandLevel.t) :
  (In (failed same_equalizer_tag)
      (fst (isEqParameterExpected
              (specific_equalizer (Equalizer.make_preset p))
              (specific_equalizer (Equalizer.make_bandLevels l))))
   /\ snd (isEqParameterExpected
             (specific_equalizer (Equalizer.make_preset p))
             (specific_equalizer (Equalizer.make_bandLevels l)))
      <> Returned true)
  /\ (In (failed same_equalizer_tag)
         (fst (isEqParameterExpected
                 (specific_equalizer (Equalizer.make_bandLevels l))
                 (specific_equalizer (Equalizer.make_preset p))))
      /\ snd (isEqParameterExpected
                (specific_equalizer (Equalizer.make_bandLevels l))
                (specific_equalizer (Equalizer.make_preset p)))
         <> Returned true).
Proof.
  unfold isEqParameterExpected; simpl.
  repeat split; try (left; reflexivity); discriminate.
Qed.

(* ================================================================== *)
(** * Normalization of the expected band levels *)

(** C3, as stated, fails: two entries for band 1 with levels 5 and 7 both
    survive the normalization, whose result repeats the index 1. *)
Lemma normalize_keeps_two_levels :
  normalize [BandLevel.mk 1 5; BandLevel.mk 1 7]
  = [BandLevel.mk 1 5; BandLevel.mk 1 7]
  /\ ~ NoDup (map BandLevel.index
                (normalize [BandLevel.mk 1 5; BandLevel.mk 1 7])).
Proof.
  split; [reflexivity|]. simpl. intros Hnd.
  inversion Hnd as [|? ? Hnotin _]; subst. apply Hnotin; left; reflexivity.
Qed.

(** C3 (amended): the normalization lists the entries of its input in
    ascending index order, drops an entry only when it equals, in index and
    level, the entry before it, and so keeps every distinct entry; when no
    band is given two levels the result has pairwise distinct indices and
    is the sorted input with every entry dropped whose index an earlier
    entry has. *)
Theorem normalize_spec (l : list BandLevel.t) :
  Sorted index_le (normalize l)
  /\ Sorted (fun a b => a <> b) (normalize l)
  /\ (forall b, In b (normalize l) <-> In b l)
  /\ (one_level_per_index l ->
      NoDup (map BandLevel.index (normalize l))
      /\ normalize l = dedup_by_index (std_sort l)).
Proof.
  split; [apply StronglySorted_Sorted, normalize_sorted|].
  split; [apply normalize_no_repeat|].
  split; [intros b; apply normalize_In|].
  intros Hone. split.
  - apply strict_NoDup_index, normalize_strict, Hone.
  - apply normalize_dedup, Hone.
Qed.

Lemma normalize_spec_witness :
  one_level_per_index [BandLevel.mk 2 0; BandLevel.mk 1 5; BandLevel.mk 2 0]
  /\ NoDup (map BandLevel.index
              (normalize [BandLevel.mk 2 0; BandLevel.mk 1 5; BandLevel.mk 2 0]))
  /\ normalize [BandLevel.mk 2 0; BandLevel.mk 1 5; BandLevel.mk 2 0]
     = dedup_by_index (std_sort [BandLevel.mk 2 0; BandLevel.mk 1 5; BandLevel.mk 2 0]).
Proof.
  assert (Hone : one_level_per_index
                   [BandLevel.mk 2 0; BandLevel.mk 1 5; BandLevel.mk 2 0]).
  { intros a b Ha Hb; simpl in Ha, Hb.
    destruct Ha as [<-|[<-|[<-|[]]]]; destruct Hb as [<-|[<-|[<-|[]]]];
      simpl; intros; lia. }
  split; [exact Hone|].
  exact (proj2 (proj2 (proj2
    (normalize_spec [BandLevel.mk 2 0; BandLevel.mk 1 5; BandLevel.mk 2 0]))) Hone).
Defined.

(** C9: on a list already in ascending index order and without a repeated
    index the normalization changes nothing. *)
Theorem normalize_idempotent (l : list BandLevel.t) :
  Sorted index_le l -> NoDup (map BandLevel.index l) -> normalize l = l.
Proof.
  intros Hs Hnd.
  assert (Hstrict : StronglySorted index_lt l).
  { apply sorted_NoDup_strict; [|exact Hnd].
    apply Sorted_StronglySorted; [exact index_le_trans | exact Hs]. }
  unfold normalize. rewrite (std_sort_id l Hstrict).
  destruct l as [|k l]; simpl; [reflexivity|].
  f_equal. apply unique_after_id, Hstrict.
Qed.

Lemma normalize_idempotent_witness :
  normalize [BandLevel.mk 0 0; BandLevel.mk 2 (-10); BandLevel.mk 4 10]
  = [BandLevel.mk 0 0; BandLevel.mk 2 (-10); BandLevel.mk 4 10].
Proof.
  apply (normalize_idempotent
           [BandLevel.mk 0 0; BandLevel.mk 2 (-10); BandLevel.mk 4 10]).
  - repeat constructor; unfold index_le; simpl; lia.
  - simpl. repeat constructor; simpl; intuition lia.
Defined.

(* ================================================================== *)
(** * The range validator *)

Lemma isBandInRange_Forall (fx : EqualizerTest) (l : list BandLevel.t) :
  isBandInRange fx l = true <-> Forall (band_in_range fx) l.
Proof.
  induction l as [|it l IH]; simpl.
  - split; [constructor | reflexivity].
  - unfold band_in_range at 1.
    destruct (Z.ltb_spec (BandLevel.index it) (fst (mBandIndex fx)));
      destruct (Z.gtb_spec (BandLevel.index it) (snd (mBandIndex fx))); simpl;
      try (split; [discriminate | intros Hall; inversion Hall; subst;
                                  unfold band_in_range in *; lia]).
    rewrite IH. split.
    + intros Hall; constructor; [unfold band_in_range; lia | exact Hall].
    + intros Hall; inversion Hall; assumption.
Qed.

Lemma isBandInRange_false (fx : EqualizerTest) (l : list BandLevel.t) :
  isBandInRange fx l = false <-> ~ Forall (band_in_range fx) l.
Proof.
  rewrite <- isBandInRange_Forall. destruct (isBandInRange fx l); split; congruence.
Qed.

(** C4: a band-level setting is in range exactly when the index of every
    entry lies between the two ends of [mBandIndex]; a non-empty list of
    such entries is in range, and one entry outside the range, wherever it
    stands and whatever stands around it, makes the setting out of range. *)
Theorem isTagInRange_bandLevels (fx : EqualizerTest) :
  (forall l,
      (isTagInRange fx Equalizer.bandLevels (Equalizer.make_bandLevels l)
       = Returned true <-> Forall (band_in_range fx) l)
      /\ (isTagInRange fx Equalizer.bandLevels (Equalizer.make_bandLevels l)
          = Returned false <-> ~ Forall (band_in_range fx) l))
  /\ (forall l, l <> [] -> Forall (band_in_range fx) l ->
        isTagInRange fx Equalizer.bandLevels (Equalizer.make_bandLevels l)
        = Returned true)
  /\ (forall before after b, ~ band_in_range fx b ->
        isTagInRange fx Equalizer.bandLevels
          (Equalizer.make_bandLevels (before ++ b :: after))
        = Returned false).
Proof.
  split; [|split].
  - intros l; simpl. rewrite <- isBandInRange_Forall.
    destruct (isBandInRange fx l); split; split; congruence.
  - intros l _ Hall; simpl. f_equal. apply isBandInRange_Forall, Hall.
  - intros before after b Hout; simpl. f_equal.
    apply isBandInRange_false. intros Hall.
    apply Forall_app in Hall. destruct Hall as [_ Hall].
    inversion Hall; subst; contradiction.
Qed.

Lemma isTagInRange_bandLevels_witness :
  isTagInRange (ReferenceEffect.fixture 0) Equalizer.bandLevels
    (Equalizer.make_bandLevels [BandLevel.mk 0 0; BandLevel.mk 4 10])
  = Returned true
  /\ isTagInRange (ReferenceEffect.fixture 0) Equalizer.bandLevels
       (Equalizer.make_bandLevels
          ([BandLevel.mk 0 0; BandLevel.mk 4 10] ++ BandLevel.mk 5 0 :: [BandLevel.mk 2 0]))
     = Returned false.
Proof.
  destruct (isTagInRange_bandLevels (ReferenceEffect.fixture 0)) as [_ [Hin Hout]].
  split.
  - apply Hin; [discriminate|].
    repeat constructor; simpl; lia.
  - apply Hout. unfold band_in_range; simpl; lia.
Defined.

(** C5: when [presetMin <= presetMax], a preset setting is in range
    exactly when its index lies between the two; the two ends are in
    range, one below the lower end and one above the upper end are not. *)
Theorem isTagInRange_preset (fx : EqualizerTest) (i : Z) :
  fst (mPresetIndex fx) <= snd (mPresetIndex fx) ->
  (isTagInRange fx Equalizer.preset (Equalizer.make_preset i) = Returned true
   <-> fst (mPresetIndex fx) <= i <= snd (mPresetIndex fx))
  /\ (exists valid,
        isTagInRange fx Equalizer.preset (Equalizer.make_preset i) = Returned valid)
  /\ isTagInRange fx Equalizer.preset
       (Equalizer.make_preset (fst (mPresetIndex fx))) = Returned true
  /\ isTagInRange fx Equalizer.preset
       (Equalizer.make_preset (snd (mPresetIndex fx))) = Returned true
  /\ isTagInRange fx Equalizer.preset
       (Equalizer.make_preset (fst (mPresetIndex fx) - 1)) = Returned false
  /\ isTagInRange fx Equalizer.preset
       (Equalizer.make_preset (snd (mPresetIndex fx) + 1)) = Returned false.
Proof.
  intros Hrange; simpl.
  assert (Hiff : forall j,
             (j >=? fst (mPresetIndex fx)) && (j <=? snd (mPresetIndex fx)) = true
             <-> fst (mPresetIndex fx) <= j <= snd (mPresetIndex fx)).
  { intros j. rewrite andb_true_iff, Z.geb_le, Z.leb_le. lia. }
  assert (Hout : forall j,
             ~ fst (mPresetIndex fx) <= j <= snd (mPresetIndex fx) ->
             (j >=? fst (mPresetIndex fx)) && (j <=? snd (mPresetIndex fx)) = false).
  { intros j Hj. apply not_true_is_false. rewrite Hiff. exact Hj. }
  split.
  { rewrite <- Hiff. split; [intros Heq; injection Heq; auto | intros ->; reflexivity]. }
  split; [eexists; reflexivity|].
  repeat split; f_equal; try (apply Hiff; lia); apply Hout; lia.
Qed.

Lemma isTagInRange_preset_witness :
  isTagInRange (ReferenceEffect.fixture 0) Equalizer.preset
    (Equalizer.make_preset 0) = Returned true
  /\ isTagInRange (ReferenceEffect.fixture 0) Equalizer.preset
       (Equalizer.make_preset 9) = Returned true
  /\ isTagInRange (ReferenceEffect.fixture 0) Equalizer.preset
       (Equalizer.make_preset (0 - 1)) = Returned false
  /\ isTagInRange (ReferenceEffect.fixture 0) Equalizer.preset
       (Equalizer.make_preset (9 + 1)) = Returned false.
Proof.
  assert (Hrange : fst (mPresetIndex (ReferenceEffect.fixture 0))
                   <= snd (mPresetIndex (ReferenceEffect.fixture 0)))
    by (simpl; lia).
  exact (proj2 (proj2 (isTagInRange_preset (ReferenceEffect.fixture 0) 5 Hrange))).
Defined.

(* ================================================================== *)
(** * The capability model *)

Section MinMaxElementFacts.
Context {A : Type} (key : A -> Z).

Lemma minmax_scan_spec (full : list A) :
  forall l done lo hi,
    full = done ++ l -> scan_invariant key full done lo hi ->
    exists xlo xhi,
      nth_error full (fst (minmax_scan key l (length done) lo hi)) = Some xlo
      /\ nth_error full (snd (minmax_scan key l (length done) lo hi)) = Some xhi
      /\ Forall (fun y => key xlo <= key y <= key xhi) full.
Proof.
  induction l as [|x l IH]; intros done lo hi Hfull [Hlo [Hhi Hall]]; simpl.
  - destruct Hlo as [xlo [Hxlo Hklo]], Hhi as [xhi [Hxhi Hkhi]].
    exists xlo, xhi. rewrite app_nil_r in Hfull; subst full.
    rewrite Hklo, Hkhi. auto.
  - assert (Hx : nth_error full (length done) = Some x).
    { subst full. rewrite nth_error_app2 by lia.
      rewrite Nat.sub_diag; reflexivity. }
    replace (S (length done)) with (length (done ++ [x]))
      by (rewrite length_app; simpl; lia).
    apply IH; [rewrite <- app_assoc; exact Hfull|].
    unfold scan_invariant.
    destruct (Z.ltb_spec (key x) (snd lo)); destruct (Z.ltb_spec (key x) (snd hi));
      simpl; (split; [eauto|]); (split; [eauto|]);
      (apply Forall_app; split;
       [eapply Forall_impl; [|exact Hall]; simpl; intros; lia
       | constructor; [lia | constructor]]).
Qed.

Lemma index_range_nonempty (l : list A) :
  l <> [] ->
  (fst (minmax_element key l) < length l)%nat
  /\ (snd (minmax_element key l) < length l)%nat
  /\ exists lo hi,
       index_range key l = Returned (lo, hi)
       /\ In lo (map key l) /\ In hi (map key l)
       /\ Forall (fun y => lo <= key y <= hi) l.
Proof.
  destruct l as [|x l]; [congruence|]; intros _.
  destruct (minmax_scan_spec (x :: l) l [x] (0%nat, key x) (0%nat, key x))
    as [xlo [xhi [Hlo [Hhi Hall]]]].
  - reflexivity.
  - unfold scan_invariant; simpl.
    repeat split; eauto. constructor; [lia | constructor].
  - unfold index_range, deref_key, minmax_element.
    change (length [x]) with 1%nat in Hlo, Hhi.
    destruct (minmax_scan key l 1 (0%nat, key x) (0%nat, key x)) as [plo phi].
    simpl fst in *; simpl snd in *.
    split; [apply nth_error_Some; congruence|].
    split; [apply nth_error_Some; congruence|].
    exists (key xlo), (key xhi). rewrite Hlo, Hhi.
    split; [reflexivity|].
    split; [apply in_map; eapply nth_error_In; eassumption|].
    split; [apply in_map; eapply nth_error_In; eassumption | exact Hall].
Qed.

Lemma index_range_empty : index_range key [] = Stopped end_iterator_read.
Proof. reflexivity. Qed.

End MinMaxElementFacts.

(** [setTagRange] against the reference service, and against a service
    whose descriptor lists no preset. *)
Example setTagRange_reference :
  snd (snd (setTagRange (ReferenceEffect.fixture 0) ReferenceEffect.initial))
  = Returned (ReferenceEffect.fixture 0).
Proof. reflexivity. Qed.

Example setTagRange_no_preset :
  let service : IEffect unit :=
    {| getDescriptor := fun s =>
         (s, (EX_NONE,
              {| capability :=
                   Capability.make_equalizer
                     {| Equalizer.bandFrequencies := [BandFrequency.mk 0 30 120];
                        Equalizer.presets := [] |} |}));
       setParameter := fun s _ => (s, EX_NONE);
       getParameter := fun s _ => (s, (EX_NONE, EffectParameter.make_other 0 0)) |} in
  snd (snd (setTagRange (ReferenceEffect.fixture 0) tt))
  = Stopped end_iterator_read.
Proof. reflexivity. Qed.

(** C8: the two range functions carry no guard. On a capability without
    presets, or without bands, [std::minmax_element] gives the end iterator
    and the function reads through it; no error value is produced. On a
    non-empty list both positions lie inside the list and the function
    returns the least and the greatest index of the list. *)
Theorem index_ranges_of_capability :
  (forall bands,
      setPresetIndexRange
        {| Equalizer.bandFrequencies := bands; Equalizer.presets := [] |}
      = Stopped end_iterator_read)
  /\ (forall presets,
        setBandIndexRange
          {| Equalizer.bandFrequencies := []; Equalizer.presets := presets |}
        = Stopped end_iterator_read)
  /\ (forall cap, Equalizer.presets cap <> [] ->
        (fst (minmax_element Preset.index (Equalizer.presets cap))
         < length (Equalizer.presets cap))%nat
        /\ (snd (minmax_element Preset.index (Equalizer.presets cap))
            < length (Equalizer.presets cap))%nat
        /\ exists lo hi,
             setPresetIndexRange cap = Returned (lo, hi)
             /\ In lo (map Preset.index (Equalizer.presets cap))
             /\ In hi (map Preset.index (Equalizer.presets cap))
             /\ Forall (fun p => lo <= Preset.index p <= hi) (Equalizer.presets cap))
  /\ (forall cap, Equalizer.bandFrequencies cap <> [] ->
        (fst (minmax_element BandFrequency.index (Equalizer.bandFrequencies cap))
         < length (Equalizer.bandFrequencies cap))%nat
        /\ (snd (minmax_element BandFrequency.index (Equalizer.bandFrequencies cap))
            < length (Equalizer.bandFrequencies cap))%nat
        /\ exists lo hi,
             setBandIndexRange cap = Returned (lo, hi)
             /\ In lo (map BandFrequency.index (Equalizer.bandFrequencies cap))
             /\ In hi (map BandFrequency.index (Equalizer.bandFrequencies cap))
             /\ Forall (fun b => lo <= BandFrequency.index b <= hi)
                  (Equalizer.bandFrequencies cap)).
Proof.
  split; [reflexivity|]. split; [reflexivity|]. split.
  - intros cap; apply index_range_nonempty.
  - intros cap; apply index_range_nonempty.
Qed.

Lemma index_ranges_of_capability_witness :
  exists lo hi,
    setPresetIndexRange
      {| Equalizer.bandFrequencies := [];
         Equalizer.presets := [Preset.mk 3 0; Preset.mk 0 0; Preset.mk 9 0] |}
    = Returned (lo, hi)
    /\ In lo (map Preset.index [Preset.mk 3 0; Preset.mk 0 0; Preset.mk 9 0])
    /\ In hi (map Preset.index [Preset.mk 3 0; Preset.mk 0 0; Preset.mk 9 0])
    /\ Forall (fun p => lo <= Preset.index p <= hi)
         [Preset.mk 3 0; Preset.mk 0 0; Preset.mk 9 0].
Proof.
  destruct index_ranges_of_capability as [_ [_ [Hpresets _]]].
  apply (Hpresets
           {| Equalizer.bandFrequencies := [];
              Equalizer.presets := [Preset.mk 3 0; Preset.mk 0 0; Preset.mk 9 0] |}).
  simpl; discriminate.
Defined.

(* ================================================================== *)
(** * The scenario driver *)

Section DriverFacts.
Context {E : Type} `{IEffect E}.
Variable fx : EqualizerTest.

Lemma justified_incl (tags tags' : list (Equalizer.Tag * Equalizer.t)) (ev : event) :
  incl tags tags' -> justified fx tags ev -> justified fx tags' ev.
Proof.
  intros Hincl. destruct ev; simpl; auto.
  - intros (tag & eq & g & Hin & Hrest); exists tag, eq, g; auto.
  - intros (tag & eq & valid & Hin & Hrest); exists tag, eq, valid; auto.
  - intros (tag & eq & Hin & Hrest); exists tag, eq; auto.
  - intros (tag & eq & Hin & Hrest); exists tag, eq; auto.
Qed.

Lemma exercised_incl (log log' : list event) (it : Equalizer.Tag * Equalizer.t) :
  incl log log' -> exercised fx log it -> exercised fx log' it.
Proof.
  intros Hincl (valid & status & Hvalid & Hset & Hget).
  exists valid, status. split; [exact Hvalid|]. split; [apply Hincl, Hset|].
  intros Htrue. destruct (Hget Htrue) as (s' & g & v & Hg & Hm).
  exists s', g, v; split; apply Hincl; assumption.
Qed.

Lemma check_bind_log {A B} (P : event -> Prop) (c : check A) (k : A -> check B) :
  Forall P (fst c) -> (forall a, Forall P (fst (k a))) ->
  Forall P (fst (check_bind c k)).
Proof.
  intros Hc Hk. destruct c as [log1 [a|f]]; simpl in *; [|exact Hc].
  specialize (Hk a). destruct (k a) as [log2 r]; simpl in *.
  apply Forall_app; auto.
Qed.

Lemma EXPECT_EQ_log {A} (eqb : A -> A -> bool) (a b : A) (e : expectation) :
  Forall (fun ev => exists e', ev = failed e') (fst (EXPECT_EQ eqb a b e)).
Proof.
  unfold EXPECT_EQ. destruct (eqb a b); simpl; repeat constructor. eauto.
Qed.

(** The comparator logs failed expectations and nothing else. *)
Lemma isEqParameterExpected_log (expect target : EffectParameter.t) :
  Forall (fun ev => exists e, ev = failed e)
    (fst (isEqParameterExpected expect target)).
Proof.
  unfold isEqParameterExpected.
  destruct (EffectParameter.eqb expect target); [constructor|].
  repeat (first
    [ apply check_bind_log; [first [apply EXPECT_EQ_log | constructor]|]; intros ?
    | constructor ]).
  destruct (Equalizer.getTag _);
  repeat (first
    [ apply check_bind_log; [first [apply EXPECT_EQ_log | constructor]|]; intros ?
    | constructor ]).
Qed.

(** One turn of the loop, case by case. *)
Lemma scenario_unfold (tag : Equalizer.Tag) (eq : Equalizer.t) (eff : E) :
  scenario fx (tag, eq) eff
  = match isTagInRange fx tag eq with
    | Stopped f => (eff, ([], Stopped f))
    | Returned false =>
        (fst (setParameter eff (specific_equalizer eq)),
         ([set_parameter (specific_equalizer eq) EX_ILLEGAL_ARGUMENT
             (snd (setParameter eff (specific_equalizer eq)))],
          Returned tt))
    | Returned true =>
        let wrote := setParameter eff (specific_equalizer eq) in
        let read := getParameter (fst wrote) (equalizer_id tag) in
        let getParam := snd (snd read) in
        let cmp := isEqParameterExpected (specific_equalizer eq) getParam in
        (fst read,
         (set_parameter (specific_equalizer eq) EX_NONE (snd wrote)
          :: get_parameter (equalizer_id tag) EX_NONE (fst (snd read)) getParam
          :: fst cmp
             ++ match snd cmp with
                | Returned verdict =>
                    [expect_matches (specific_equalizer eq) getParam verdict]
                | Stopped _ => []
                end,
          match snd cmp with
          | Returned _ => Returned tt
          | Stopped f => Stopped f
          end))
    end.
Proof.
  unfold scenario, run_bind, lift, access, call, emit, run_ret, check_ret.
  cbv beta zeta. simpl fst; simpl snd.
  destruct (isTagInRange fx tag eq) as [[|]|f]; [| |reflexivity].
  - change (EX_NONE =? EX_NONE) with true. cbv iota.
    destruct (setParameter eff (specific_equalizer eq)) as [eff1 status].
    simpl fst; simpl snd.
    destruct (getParameter eff1 (equalizer_id tag)) as [eff2 [status' getParam]].
    simpl fst; simpl snd.
    destruct (isEqParameterExpected (specific_equalizer eq) getParam)
      as [flog [verdict|f]]; simpl fst; simpl snd; cbv iota.
    + reflexivity.
    + rewrite app_nil_r. reflexivity.
  - change (EX_ILLEGAL_ARGUMENT =? EX_NONE) with false. cbv iota.
    destruct (setParameter eff (specific_equalizer eq)) as [eff1 status].
    reflexivity.
Qed.

Lemma scenario_log (it : Equalizer.Tag * Equalizer.t) (eff : E) :
  Forall (justified fx [it]) (log_of (scenario fx it eff))
  /\ (snd (snd (scenario fx it eff)) = Returned tt ->
      exercised fx (log_of (scenario fx it eff)) it).
Proof.
  destruct it as [tag eq]. rewrite scenario_unfold. unfold log_of, exercised.
  simpl fst; simpl snd.
  destruct (isTagInRange fx tag eq) as [[|]|f] eqn:Hvalid;
    [| |split; [constructor | discriminate]].
  - cbv zeta.
    set (wrote := setParameter eff (specific_equalizer eq)).
    set (read := getParameter (fst wrote) (equalizer_id tag)).
    set (getParam := snd (snd read)).
    pose proof (isEqParameterExpected_log (specific_equalizer eq) getParam) as Hf.
    destruct (isEqParameterExpected (specific_equalizer eq) getParam)
      as [flog r] eqn:Hcmp.
    simpl fst in *; simpl snd in *.
    assert (Hlog : Forall (justified fx [(tag, eq)]) flog).
    { rewrite Forall_forall in *. intros ev Hev.
      destruct (Hf ev Hev) as [e ->].
      exists tag, eq, getParam. rewrite Hcmp.
      split; [left; reflexivity|]. split; [exact Hvalid | exact Hev]. }
    split.
    + constructor.
      { exists tag, eq, true.
        split; [left; reflexivity|]. repeat split; assumption. }
      constructor.
      { exists tag, eq.
        split; [left; reflexivity|]. repeat split; assumption. }
      apply Forall_app; split; [exact Hlog|].
      destruct r as [verdict|f]; constructor; [|constructor].
      exists tag, eq. rewrite Hcmp.
      split; [left; reflexivity|]. repeat split; assumption.
    + destruct r as [verdict|f]; [|discriminate].
      intros _. exists true, (snd wrote). split; [reflexivity|].
      split; [left; reflexivity|]. intros _.
      exists (fst (snd read)), getParam, verdict. split.
      * right; left; reflexivity.
      * right; right. apply in_or_app; right; left; reflexivity.
  - split.
    + constructor; [|constructor].
      exists tag, eq, false.
      split; [left; reflexivity|]. repeat split; assumption.
    + intros _. exists false, (snd (setParameter eff (specific_equalizer eq))).
      split; [reflexivity|]. split; [left; reflexivity | discriminate].
Qed.

(** The whole loop, by induction on the scenarios still to run. *)
Lemma for_each_scenario_log (l : list (Equalizer.Tag * Equalizer.t)) (eff : E) :
  Forall (justified fx l) (log_of (for_each (scenario fx) l eff))
  /\ (snd (snd (for_each (scenario fx) l eff)) = Returned tt ->
      Forall (exercised fx (log_of (for_each (scenario fx) l eff))) l).
Proof.
  revert eff; induction l as [|it l IH]; intros eff.
  - split; constructor.
  - pose proof (scenario_log it eff) as [Hj He].
    unfold log_of in *. simpl for_each. unfold run_bind.
    destruct (scenario fx it eff) as [eff1 [log1 [[]|f]]]; simpl fst in *; simpl snd in *.
    + specialize (IH eff1). destruct IH as [IHj IHe].
      destruct (for_each (scenario fx) l eff1) as [eff2 [log2 r]];
        simpl fst in *; simpl snd in *.
      split.
      * apply Forall_app; split.
        -- eapply Forall_impl; [|exact Hj].
           intros ev; apply justified_incl. intros x [<-|[]]; left; reflexivity.
        -- eapply Forall_impl; [|exact IHj].
           intros ev; apply justified_incl. intros x Hx; right; exact Hx.
      * intros Hr. constructor.
        -- eapply exercised_incl; [|apply He; reflexivity].
           intros ev Hev; apply in_or_app; left; exact Hev.
        -- eapply Forall_impl; [|apply IHe, Hr].
           intros x; apply exercised_incl.
           intros ev Hev; apply in_or_app; right; exact Hev.
    + split; [|discriminate].
      eapply Forall_impl; [|exact Hj].
      intros ev; apply justified_incl. intros x [<-|[]]; left; reflexivity.
Qed.

End DriverFacts.

(** C6: in every run of the driver, each write is checked against the
    status that the validator's verdict on its scenario calls for, success
    for an in-range setting and the illegal-argument code for an
    out-of-range one; a read-back, a comparison and the expectations the
    comparison records occur only for a scenario the validator found in
    range; and a run that reaches its end has written every scenario, and
    read back and compared every in-range one. *)
Theorem SetAndGetEqualizerParameters_expectations
    {E : Type} `{IEffect E} (fx : EqualizerTest) (mEffect : option E) :
  (forall p expected status,
      In (set_parameter p expected status)
         (log_of (SetAndGetEqualizerParameters fx mEffect)) ->
      exists tag eq valid,
        In (tag, eq) (mTags fx) /\ p = specific_equalizer eq
        /\ isTagInRange fx tag eq = Returned valid
        /\ expected = (if valid then EX_NONE else EX_ILLEGAL_ARGUMENT))
  /\ (forall id expected status getParam,
        In (get_parameter id expected status getParam)
           (log_of (SetAndGetEqualizerParameters fx mEffect)) ->
        exists tag eq,
          In (tag, eq) (mTags fx) /\ id = equalizer_id tag /\ expected = EX_NONE
          /\ isTagInRange fx tag eq = Returned true)
  /\ (forall p getParam verdict,
        In (expect_matches p getParam verdict)
           (log_of (SetAndGetEqualizerParameters fx mEffect)) ->
        exists tag eq,
          In (tag, eq) (mTags fx) /\ p = specific_equalizer eq
          /\ isTagInRange fx tag eq = Returned true
          /\ snd (isEqParameterExpected p getParam) = Returned verdict)
  /\ (completed (SetAndGetEqualizerParameters fx mEffect) ->
      forall tag eq, In (tag, eq) (mTags fx) ->
        exists valid status,
          isTagInRange fx tag eq = Returned valid
          /\ In (set_parameter (specific_equalizer eq)
                   (if valid then EX_NONE else EX_ILLEGAL_ARGUMENT) status)
                (log_of (SetAndGetEqualizerParameters fx mEffect))
          /\ (valid = true ->
              exists status' getParam verdict,
                In (get_parameter (equalizer_id tag) EX_NONE status' getParam)
                   (log_of (SetAndGetEqualizerParameters fx mEffect))
                /\ In (expect_matches (specific_equalizer eq) getParam verdict)
                     (log_of (SetAndGetEqualizerParameters fx mEffect)))).
Proof.
  unfold SetAndGetEqualizerParameters, completed.
  destruct mEffect as [eff|].
  - pose proof (for_each_scenario_log fx (mTags fx) eff) as [Hj He].
    unfold log_of in *.
    destruct (for_each (scenario fx) (mTags fx) eff) as [eff' [log r]];
      simpl fst in *; simpl snd in *.
    rewrite Forall_forall in Hj.
    split; [intros p e s Hin; exact (Hj _ Hin)|].
    split; [intros id e s g Hin; exact (Hj _ Hin)|].
    split; [intros p g v Hin; exact (Hj _ Hin)|].
    intros [_ Hr] tag eq Hin. specialize (He Hr).
    rewrite Forall_forall in He. exact (He _ Hin).
  - unfold log_of; simpl.
    split; [intros p e s [Hin|[]]; discriminate|].
    split; [intros id e s g [Hin|[]]; discriminate|].
    split; [intros p g v [Hin|[]]; discriminate|].
    intros [Hnone _]; congruence.
Qed.

Lemma SetAndGetEqualizerParameters_expectations_witness :
  completed
    (SetAndGetEqualizerParameters
       (addBandLevelsParam (addPresetParam (ReferenceEffect.fixture (-10)) 10)
          [BandLevel.mk 2 (-10)])
       (Some ReferenceEffect.initial))
  /\ forall tag eq,
       In (tag, eq)
          (mTags (addBandLevelsParam (addPresetParam (ReferenceEffect.fixture (-10)) 10)
                    [BandLevel.mk 2 (-10)])) ->
       exists valid status,
         isTagInRange
           (addBandLevelsParam (addPresetParam (ReferenceEffect.fixture (-10)) 10)
              [BandLevel.mk 2 (-10)]) tag eq = Returned valid
         /\ In (set_parameter (specific_equalizer eq)
                  (if valid then EX_NONE else EX_ILLEGAL_ARGUMENT) status)
               (log_of
                  (SetAndGetEqualizerParameters
                     (addBandLevelsParam
                        (addPresetParam (ReferenceEffect.fixture (-10)) 10)
                        [BandLevel.mk 2 (-10)])
                     (Some ReferenceEffect.initial)))
         /\ (valid = true ->
             exists status' getParam verdict,
               In (get_parameter (equalizer_id tag) EX_NONE status' getParam)
                  (log_of
                     (SetAndGetEqualizerParameters
                        (addBandLevelsParam
                           (addPresetParam (ReferenceEffect.fixture (-10)) 10)
                           [BandLevel.mk 2 (-10)])
                        (Some ReferenceEffect.initial)))
               /\ In (expect_matches (specific_equalizer eq) getParam verdict)
                    (log_of
                       (SetAndGetEqualizerParameters
                          (addBandLevelsParam
                             (addPresetParam (ReferenceEffect.fixture (-10)) 10)
                             [BandLevel.mk 2 (-10)])
                          (Some ReferenceEffect.initial)))).
Proof.
  assert (Hdone : completed
            (SetAndGetEqualizerParameters
               (addBandLevelsParam (addPresetParam (ReferenceEffect.fixture (-10)) 10)
                  [BandLevel.mk 2 (-10)])
               (Some ReferenceEffect.initial))).
  { split; [discriminate | reflexivity]. }
  split; [exact Hdone|].
  exact (proj2 (proj2 (proj2
    (SetAndGetEqualizerParameters_expectations
       (addBandLevelsParam (addPresetParam (ReferenceEffect.fixture (-10)) 10)
          [BandLevel.mk 2 (-10)])
       (Some ReferenceEffect.initial)))) Hdone).
Defined.

(** The band scenarios of the specification on the reference service: a
    write inside the range is read back and compared, a write outside the
    range is only written. *)
Example SetAndGetBandInBound_reference :
  log_of (SetAndGetBandInBound (ReferenceEffect.fixture (-10))
            (Some ReferenceEffect.initial))
  = [set_parameter
       (specific_equalizer (Equalizer.make_bandLevels [BandLevel.mk 2 (-10)]))
       EX_NONE EX_NONE;
     get_parameter (equalizer_id Equalizer.bandLevels) EX_NONE EX_NONE
       (specific_equalizer
          (Equalizer.make_bandLevels
             [BandLevel.mk 0 0; BandLevel.mk 1 0; BandLevel.mk 2 (-10);
              BandLevel.mk 3 0; BandLevel.mk 4 0]));
     expect_matches
       (specific_equalizer (Equalizer.make_bandLevels [BandLevel.mk 2 (-10)]))
       (specific_equalizer
          (Equalizer.make_bandLevels
             [BandLevel.mk 0 0; BandLevel.mk 1 0; BandLevel.mk 2 (-10);
              BandLevel.mk 3 0; BandLevel.mk 4 0]))
       true].
Proof. reflexivity. Qed.

Example SetAndGetBandOutOfUpperBound_reference :
  log_of (SetAndGetBandOutOfUpperBound (ReferenceEffect.fixture (-10))
            (Some ReferenceEffect.initial))
  = [set_parameter
       (specific_equalizer (Equalizer.make_bandLevels [BandLevel.mk 5 (-10)]))
       EX_ILLEGAL_ARGUMENT EX_ILLEGAL_ARGUMENT].
Proof. reflexivity. Qed.

(** C10: a band-level setting without entries is in range for every
    fixture, and the driver checks its write against the success status. *)
Theorem isTagInRange_no_bandLevels
    {E : Type} `{IEffect E} (fx : EqualizerTest) (eff : E) :
  isTagInRange fx Equalizer.bandLevels (Equalizer.make_bandLevels [])
  = Returned true
  /\ exists status rest,
       log_of (scenario fx (Equalizer.bandLevels, Equalizer.make_bandLevels []) eff)
       = set_parameter (specific_equalizer (Equalizer.make_bandLevels []))
           EX_NONE status :: rest.
Proof.
  split; [reflexivity|].
  rewrite scenario_unfold. unfold log_of. simpl. eauto.
Qed.

(** C7: [SetAndGetPresetOutOfLowerBound] on a fresh fixture writes the
    preset one below the upper end of the range, [presetMax - 1], checked
    against the verdict of the validator on that value; with presets
    [0..9] it writes preset 8, expects success and reads it back, and
    preset [-1] is never written. *)
Theorem SetAndGetPresetOutOfLowerBound_writes
    {E : Type} `{IEffect E} (presetIndex bandIndex : Z * Z) (bandLevel : Z) (eff : E) :
  (exists status rest,
      log_of (SetAndGetPresetOutOfLowerBound
                {| mPresetIndex := presetIndex; mBandIndex := bandIndex;
                   mBandLevel := bandLevel; mTags := [] |} (Some eff))
      = set_parameter
          (specific_equalizer (Equalizer.make_preset (snd presetIndex - 1)))
          (expected_status
             ((snd presetIndex - 1 >=? fst presetIndex)
              && (snd presetIndex - 1 <=? snd presetIndex)))
          status :: rest)
  /\ log_of (SetAndGetPresetOutOfLowerBound (ReferenceEffect.fixture 0)
               (Some ReferenceEffect.initial))
     = [set_parameter (specific_equalizer (Equalizer.make_preset 8))
          EX_NONE EX_NONE;
        get_parameter (equalizer_id Equalizer.preset) EX_NONE EX_NONE
          (specific_equalizer (Equalizer.make_preset 8));
        expect_matches (specific_equalizer (Equalizer.make_preset 8))
          (specific_equalizer (Equalizer.make_preset 8)) true].
Proof.
  split; [|reflexivity].
  unfold SetAndGetPresetOutOfLowerBound, SetAndGetEqualizerParameters, log_of.
  simpl mTags. simpl for_each. unfold run_bind. rewrite scenario_unfold.
  simpl isTagInRange.
  destruct ((snd presetIndex - 1 >=? fst presetIndex)
            && (snd presetIndex - 1 <=? snd presetIndex)); simpl.
  - destruct (isEqParameterExpected _ _) as [flog [v|f]]; simpl; eauto.
  - eauto.
Qed.


(* ================================================================== *)
(** * Further properties of the comparator *)

Lemma Equalizer_eqb_eq (a b : Equalizer.t) : Equalizer.eqb a b = true <-> a = b.
Proof.
  destruct a, b; simpl; try (split; [discriminate | congruence]).
  - rewrite Z.eqb_eq. split; [congruence | intros Heq; injection Heq; auto].
  - rewrite levels_eqb_eq. split; [congruence | intros Heq; injection Heq; auto].
  - rewrite Z.eqb_eq. split; [congruence | intros Heq; injection Heq; auto].
Qed.

Lemma Specific_eqb_eq (a b : Specific.t) : Specific.eqb a b = true <-> a = b.
Proof.
  destruct a, b; simpl; try (split; [discriminate | congruence]).
  - rewrite Equalizer_eqb_eq. split; [congruence | intros Heq; injection Heq; auto].
  - rewrite andb_true_iff, Nat.eqb_eq, Z.eqb_eq. split.
    + intros [-> ->]; reflexivity.
    + intros Heq; injection Heq; auto.
Qed.

Lemma EffectParameter_eqb_eq (a b : EffectParameter.t) :
  EffectParameter.eqb a b = true <-> a = b.
Proof.
  destruct a, b; simpl; try (split; [discriminate | congruence]).
  - rewrite Specific_eqb_eq. split; [congruence | intros Heq; injection Heq; auto].
  - rewrite andb_true_iff, Nat.eqb_eq, Z.eqb_eq. split.
    + intros [-> ->]; reflexivity.
    + intros Heq; injection Heq; auto.
Qed.

Lemma EffectParameter_eqb_neq (a b : EffectParameter.t) :
  a <> b -> EffectParameter.eqb a b = false.
Proof.
  intros Hneq. apply not_true_is_false. rewrite EffectParameter_eqb_eq. exact Hneq.
Qed.

(** Whatever order range 1 is in, [std_includes] answers [true] only when
    it has met every entry of range 2 in range 1. *)
Lemma std_includes_sound (t n : list BandLevel.t) :
  std_includes t n = true -> incl n t.
Proof.
  revert n; induction t as [|a t IH]; intros n; destruct n as [|b n]; simpl;
    intros Hinc.
  - intros x Hx; exact Hx.
  - discriminate Hinc.
  - intros x Hx; contradiction Hx.
  - destruct (BandLevel.ltb b a) eqn:Hba; [discriminate Hinc|].
    destruct (BandLevel.ltb a b) eqn:Hab; simpl in Hinc.
    + intros x Hx; right; exact (IH _ Hinc x Hx).
    + apply BandLevel_ltb_nlt in Hba, Hab.
      assert (a = b) by (apply pair_trichotomy; assumption). subst b.
      intros x [<-|Hx]; [left; reflexivity | right; exact (IH _ Hinc x Hx)].
Qed.


(** X2: against an expected preset the comparator answers [true] for one
    read-back only, the parameter holding that same preset. *)
Theorem isEqParameterExpected_preset_exact (p : Z) (target : EffectParameter.t) :
  snd (isEqParameterExpected (specific_equalizer (Equalizer.make_preset p)) target)
  = Returned true
  <-> target = specific_equalizer (Equalizer.make_preset p).
Proof.
  split.
  - destruct (EffectParameter.eqb (specific_equalizer (Equalizer.make_preset p)) target)
      eqn:Heq.
    + intros _. symmetry. apply EffectParameter_eqb_eq, Heq.
    + unfold isEqParameterExpected. rewrite Heq.
      destruct target as [[[x|l|q]|w x]|w x]; simpl; try discriminate.
      simpl in Heq. rewrite Heq. discriminate.
  - intros ->. rewrite isEqParameterExpected_preset, Z.eqb_refl. reflexivity.
Qed.

(** X3: when the comparator answers [true] for an expected band-level
    setting, the read-back is a band-level setting and holds every entry
    that was written, with its level; no order of the read-back is assumed. *)
Theorem isEqParameterExpected_true_keeps_levels
    (expectBl : list BandLevel.t) (target : EffectParameter.t) :
  snd (isEqParameterExpected
         (specific_equalizer (Equalizer.make_bandLevels expectBl)) target)
  = Returned true ->
  exists targetBl,
    target = specific_equalizer (Equalizer.make_bandLevels targetBl)
    /\ forall b, In b expectBl -> In b targetBl.
Proof.
  destruct target as [[[x|l|q]|w x]|w x];
    try (unfold isEqParameterExpected; simpl; discriminate).
  change (EffectParameter.make_specific
            (Specific.make_equalizer (Equalizer.make_bandLevels l)))
    with (specific_equalizer (Equalizer.make_bandLevels l)).
  rewrite isEqParameterExpected_bandLevels. simpl. intros Hres.
  exists l. split; [reflexivity|].
  assert (Hor : Equalizer.levels_eqb expectBl l
                || std_includes l (normalize expectBl) = true) by congruence.
  apply orb_true_iff in Hor. destruct Hor as [Heq|Hinc].
  - apply levels_eqb_eq in Heq; subst; auto.
  - intros b Hb. apply (std_includes_sound _ _ Hinc). apply normalize_In, Hb.
Qed.

Lemma isEqParameterExpected_true_keeps_levels_witness :
  exists targetBl,
    specific_equalizer
      (Equalizer.make_bandLevels [BandLevel.mk 0 0; BandLevel.mk 3 (-1); BandLevel.mk 4 0])
    = specific_equalizer (Equalizer.make_bandLevels targetBl)
    /\ forall b, In b [BandLevel.mk 3 (-1)] -> In b targetBl.
Proof.
  apply (isEqParameterExpected_true_keeps_levels
           [BandLevel.mk 3 (-1)]
           (specific_equalizer
              (Equalizer.make_bandLevels
                 [BandLevel.mk 0 0; BandLevel.mk 3 (-1); BandLevel.mk 4 0]))).
  reflexivity.
Defined.

(** X4: a level that came back changed is always found out. If the
    read-back gives each band one level and holds, for a band that was
    written, another level than the written one, the comparator answers
    [false], in whatever order the read-back lists its entries. *)
Theorem isEqParameterExpected_changed_level
    (expectBl targetBl : list BandLevel.t) (written read : BandLevel.t) :
  one_level_per_index targetBl ->
  In written expectBl -> In read targetBl ->
  BandLevel.index written = BandLevel.index read ->
  BandLevel.levelMb written <> BandLevel.levelMb read ->
  isEqParameterExpected
    (specific_equalizer (Equalizer.make_bandLevels expectBl))
    (specific_equalizer (Equalizer.make_bandLevels targetBl))
  = ([], Returned false).
Proof.
  intros Hone Hw Hr Hidx Hlev.
  rewrite isEqParameterExpected_bandLevels. do 2 f_equal.
  apply not_true_is_false. intros Hor.
  apply orb_true_iff in Hor.
  assert (Hin : In written targetBl).
  { destruct Hor as [Heq|Hinc].
    - apply levels_eqb_eq in Heq; subst; exact Hw.
    - apply (std_includes_sound _ _ Hinc). apply normalize_In, Hw. }
  apply Hlev. exact (Hone _ _ Hin Hr Hidx).
Qed.

Lemma isEqParameterExpected_changed_level_witness :
  isEqParameterExpected
    (specific_equalizer (Equalizer.make_bandLevels [BandLevel.mk 3 (-1)]))
    (specific_equalizer
       (Equalizer.make_bandLevels [BandLevel.mk 2 0; BandLevel.mk 3 0; BandLevel.mk 4 0]))
  = ([], Returned false).
Proof.
  apply (isEqParameterExpected_changed_level
           [BandLevel.mk 3 (-1)]
           [BandLevel.mk 2 0; BandLevel.mk 3 0; BandLevel.mk 4 0]
           (BandLevel.mk 3 (-1)) (BandLevel.mk 3 0)).
  - intros a b Ha Hb; simpl in Ha, Hb.
    destruct Ha as [<-|[<-|[<-|[]]]]; destruct Hb as [<-|[<-|[<-|[]]]];
      simpl; intros; lia.
  - left; reflexivity.
  - right; left; reflexivity.
  - reflexivity.
  - simpl; lia.
Defined.

(** X5: when the two parameters hold equalizer settings of the same
    variant, the comparator returns a verdict and records no failed
    expectation. *)
Theorem isEqParameterExpected_same_tag (expectEq targetEq : Equalizer.t) :
  Equalizer.getTag expectEq = Equalizer.getTag targetEq ->
  exists verdict,
    isEqParameterExpected (specific_equalizer expectEq) (specific_equalizer targetEq)
    = ([], Returned verdict).
Proof.
  destruct expectEq as [x|l|p], targetEq as [y|m|q]; simpl; try discriminate; intros _.
  - unfold isEqParameterExpected; simpl. destruct (x =? y); eexists; reflexivity.
  - rewrite isEqParameterExpected_bandLevels; eexists; reflexivity.
  - rewrite isEqParameterExpected_preset; eexists; reflexivity.
Qed.

Lemma isEqParameterExpected_same_tag_witness :
  exists verdict,
    isEqParameterExpected
      (specific_equalizer (Equalizer.make_vendor 1))
      (specific_equalizer (Equalizer.make_vendor 2))
    = ([], Returned verdict).
Proof.
  apply (isEqParameterExpected_same_tag (Equalizer.make_vendor 1) (Equalizer.make_vendor 2)).
  reflexivity.
Defined.

(** X6: when the two equalizer settings are of different variants, the
    comparator records the failed expectation on the tags; it then answers
    [false] if the read-back holds a vendor extension, and otherwise stops
    at the read of the expected setting through the read-back's tag. *)
Theorem isEqParameterExpected_other_tag (expectEq targetEq : Equalizer.t) :
  Equalizer.getTag expectEq <> Equalizer.getTag targetEq ->
  isEqParameterExpected (specific_equalizer expectEq) (specific_equalizer targetEq)
  = ([failed same_equalizer_tag],
     match Equalizer.getTag targetEq with
     | Equalizer.vendor => Returned false
     | _ => Stopped bad_union_access
     end).
Proof.
  destruct expectEq as [x|l|p], targetEq as [y|m|q]; simpl; intros Hneq;
    try congruence; reflexivity.
Qed.

Lemma isEqParameterExpected_other_tag_witness :
  isEqParameterExpected
    (specific_equalizer (Equalizer.make_bandLevels [BandLevel.mk 0 0]))
    (specific_equalizer (Equalizer.make_vendor 7))
  = ([failed same_equalizer_tag], Returned false).
Proof.
  apply (isEqParameterExpected_other_tag
           (Equalizer.make_bandLevels [BandLevel.mk 0 0]) (Equalizer.make_vendor 7)).
  simpl; discriminate.
Defined.

(** X7: a read-back that is not a [specific] parameter, such as the
    default value a failed [getParameter] leaves behind, makes the
    comparator stop: it records that the read-back's tag is not
    [specific] and never returns a verdict. *)
Theorem isEqParameterExpected_target_not_specific
    (expect : EffectParameter.t) (which : nat) (payload : Z) :
  expect <> EffectParameter.make_other which payload ->
  In (failed target_is_specific)
     (fst (isEqParameterExpected expect (EffectParameter.make_other which payload)))
  /\ snd (isEqParameterExpected expect (EffectParameter.make_other which payload))
     = Stopped bad_union_access.
Proof.
  intros Hneq. unfold isEqParameterExpected.
  rewrite (EffectParameter_eqb_neq _ _ Hneq).
  destruct expect as [s|w x]; simpl; auto.
Qed.

Lemma isEqParameterExpected_target_not_specific_witness :
  In (failed target_is_specific)
     (fst (isEqParameterExpected
             (specific_equalizer (Equalizer.make_preset 3))
             (EffectParameter.make_other 0 0)))
  /\ snd (isEqParameterExpected
            (specific_equalizer (Equalizer.make_preset 3))
            (EffectParameter.make_other 0 0))
     = Stopped bad_union_access.
Proof.
  apply (isEqParameterExpected_target_not_specific
           (specific_equalizer (Equalizer.make_preset 3)) 0%nat 0).
  discriminate.
Defined.

(* ================================================================== *)
(** * Further properties of the range validator *)

(** X8: [isTagInRange] stops exactly when it is asked to read a preset or
    band levels out of a setting that holds another variant; a setting
    checked under its own tag always gets a verdict, and the tag [vendor]
    gets the verdict [false] whatever the setting. *)
Theorem isTagInRange_stops_iff (fx : EqualizerTest) (tag : Equalizer.Tag)
    (eq : Equalizer.t) :
  ((exists f, isTagInRange fx tag eq = Stopped f)
   <-> tag <> Equalizer.vendor /\ tag <> Equalizer.getTag eq)
  /\ (exists valid, isTagInRange fx (Equalizer.getTag eq) eq = Returned valid)
  /\ isTagInRange fx Equalizer.vendor eq = Returned false.
Proof.
  split; [|split].
  - destruct tag, eq; simpl; split;
      try (intros [f Hf]; discriminate Hf);
      try (intros [Hv Ht]; congruence);
      try (intros _; split; discriminate);
      try (intros _; eexists; reflexivity).
  - destruct eq; simpl; eauto.
  - reflexivity.
Qed.

Lemma isBandInRange_app (fx : EqualizerTest) (l1 l2 : list BandLevel.t) :
  isBandInRange fx (l1 ++ l2) = isBandInRange fx l1 && isBandInRange fx l2.
Proof.
  induction l1 as [|it l1 IH]; simpl; [reflexivity|].
  destruct ((BandLevel.index it <? fst (mBandIndex fx))
            || (BandLevel.index it >? snd (mBandIndex fx))); [reflexivity | exact IH].
Qed.

(** X9: the verdict on a band-level setting does not depend on the order
    of its entries, and the verdict on two batches written together is the
    conjunction of the verdicts on each. *)
Theorem isBandInRange_order_and_batches (fx : EqualizerTest) :
  (forall l1 l2, Permutation l1 l2 -> isBandInRange fx l1 = isBandInRange fx l2)
  /\ (forall l1 l2,
        isBandInRange fx (l1 ++ l2) = isBandInRange fx l1 && isBandInRange fx l2).
Proof.
  split; [|apply isBandInRange_app].
  intros l1 l2 Hp.
  destruct (isBandInRange fx l2) eqn:H2.
  - apply isBandInRange_Forall. apply isBandInRange_Forall in H2.
    eapply Permutation_Forall; [apply Permutation_sym, Hp | exact H2].
  - apply isBandInRange_false. apply isBandInRange_false in H2.
    intros H1; apply H2. eapply Permutation_Forall; [exact Hp | exact H1].
Qed.

Lemma isBandInRange_order_and_batches_witness :
  isBandInRange (ReferenceEffect.fixture 0)
    [BandLevel.mk 4 0; BandLevel.mk 0 0; BandLevel.mk 2 0]
  = isBandInRange (ReferenceEffect.fixture 0)
      [BandLevel.mk 0 0; BandLevel.mk 2 0; BandLevel.mk 4 0].
Proof.
  apply (proj1 (isBandInRange_order_and_batches (ReferenceEffect.fixture 0))).
  eapply Permutation_trans; [apply perm_swap|].
  apply perm_skip, perm_swap.
Defined.

(** X10: with an empty range, the lower end above the upper end, no preset
    and no band-level setting with an entry is in range. *)
Theorem isTagInRange_empty_range (fx : EqualizerTest) :
  (snd (mPresetIndex fx) < fst (mPresetIndex fx) ->
   forall i, isTagInRange fx Equalizer.preset (Equalizer.make_preset i)
             = Returned false)
  /\ (snd (mBandIndex fx) < fst (mBandIndex fx) ->
      forall l, l <> [] ->
        isTagInRange fx Equalizer.bandLevels (Equalizer.make_bandLevels l)
        = Returned false).
Proof.
  split.
  - intros Hempty i; simpl. f_equal.
    apply not_true_is_false. rewrite andb_true_iff, Z.geb_le, Z.leb_le. lia.
  - intros Hempty [|b l] Hne; [congruence|]. simpl.
    destruct (Z.ltb_spec (BandLevel.index b) (fst (mBandIndex fx)));
      destruct (Z.gtb_spec (BandLevel.index b) (snd (mBandIndex fx)));
      simpl; try reflexivity. lia.
Qed.

Lemma isTagInRange_empty_range_witness :
  isTagInRange
    {| mPresetIndex := (5, 4); mBandIndex := (1, 0); mBandLevel := 0; mTags := [] |}
    Equalizer.preset (Equalizer.make_preset 5)
  = Returned false
  /\ isTagInRange
       {| mPresetIndex := (5, 4); mBandIndex := (1, 0); mBandLevel := 0; mTags := [] |}
       Equalizer.bandLevels (Equalizer.make_bandLevels [BandLevel.mk 1 0])
     = Returned false.
Proof.
  destruct (isTagInRange_empty_range
              {| mPresetIndex := (5, 4); mBandIndex := (1, 0);
                 mBandLevel := 0; mTags := [] |}) as [Hp Hb].
  split.
  - apply Hp. simpl; lia.
  - apply Hb; [simpl; lia | discriminate].
Defined.

(* ================================================================== *)
(** * Further properties of the fixture and of the driver *)

Lemma isTagInRange_own_tag (fx : EqualizerTest) (eq : Equalizer.t) :
  exists valid, isTagInRange fx (Equalizer.getTag eq) eq = Returned valid.
Proof. destruct eq; simpl; eexists; reflexivity. Qed.

Lemma isBandInRange_ranges (fx fx' : EqualizerTest) (l : list BandLevel.t) :
  mBandIndex fx = mBandIndex fx' -> isBandInRange fx l = isBandInRange fx' l.
Proof.
  intros Heq. induction l as [|it l IH]; simpl; [reflexivity|].
  rewrite Heq, IH. reflexivity.
Qed.

(** X11: the three operations on [mTags] keep every entry paired with the
    tag of its setting, and adding a scenario changes no verdict of the
    validator, which reads the two ranges only. *)
Theorem mTags_well_tagged (fx : EqualizerTest) :
  well_tagged (CleanUp fx)
  /\ (well_tagged fx ->
      (forall preset, well_tagged (addPresetParam fx preset))
      /\ (forall bandLevels, well_tagged (addBandLevelsParam fx bandLevels)))
  /\ (forall tag eq preset,
        isTagInRange (addPresetParam fx preset) tag eq = isTagInRange fx tag eq)
  /\ (forall tag eq bandLevels,
        isTagInRange (addBandLevelsParam fx bandLevels) tag eq
        = isTagInRange fx tag eq).
Proof.
  split; [constructor|]. split.
  - intros Hwt; split; intros x; unfold well_tagged; simpl;
      apply Forall_app; split; try exact Hwt; repeat constructor.
  - split; intros tag eq x; destruct tag, eq; simpl; try reflexivity;
      f_equal; apply isBandInRange_ranges; reflexivity.
Qed.

Lemma mTags_well_tagged_witness :
  well_tagged (addBandLevelsParam (addPresetParam (ReferenceEffect.fixture 0) 3)
                 [BandLevel.mk 2 0]).
Proof.
  apply (proj1 (proj2 (mTags_well_tagged
                         (addPresetParam (ReferenceEffect.fixture 0) 3)))).
  repeat constructor.
Defined.

Lemma writes_app (l1 l2 : list event) : writes (l1 ++ l2) = writes l1 ++ writes l2.
Proof.
  induction l1 as [|ev l1 IH]; simpl; [reflexivity|].
  destruct ev; simpl; rewrite IH; reflexivity.
Qed.

Lemma writes_failed_only (log : list event) :
  Forall (fun ev => exists e, ev = failed e) log -> writes log = [].
Proof.
  induction 1 as [|ev log [e ->] _ IH]; simpl; [reflexivity | exact IH].
Qed.

Section DriverOrder.
Context {E : Type} `{IEffect E}.
Variable fx : EqualizerTest.

(** What one turn of the loop writes: nothing when the validator stops,
    the parameter of the scenario otherwise. *)
Lemma scenario_writes (it : Equalizer.Tag * Equalizer.t) (eff : E) :
  writes (log_of (scenario fx it eff))
  = match isTagInRange fx (fst it) (snd it) with
    | Returned _ => [specific_equalizer (snd it)]
    | Stopped _ => []
    end.
Proof.
  destruct it as [tag eq]. rewrite scenario_unfold. unfold log_of. simpl fst; simpl snd.
  destruct (isTagInRange fx tag eq) as [[|]|f]; try reflexivity.
  cbv zeta. simpl. rewrite writes_app.
  rewrite (writes_failed_only _ (isEqParameterExpected_log _ _)).
  destruct (snd (isEqParameterExpected _ _)); reflexivity.
Qed.

Lemma scenario_stopped_validator (it : Equalizer.Tag * Equalizer.t) (eff : E) f :
  isTagInRange fx (fst it) (snd it) = Stopped f ->
  snd (snd (scenario fx it eff)) = Stopped f.
Proof.
  destruct it as [tag eq]; simpl. intros Hstop.
  rewrite scenario_unfold, Hstop. reflexivity.
Qed.

Lemma for_each_writes (l : list (Equalizer.Tag * Equalizer.t)) (eff : E) :
  exists k,
    writes (log_of (for_each (scenario fx) l eff))
    = firstn k (map (fun it => specific_equalizer (snd it)) l)
    /\ (snd (snd (for_each (scenario fx) l eff)) = Returned tt ->
        writes (log_of (for_each (scenario fx) l eff))
        = map (fun it => specific_equalizer (snd it)) l).
Proof.
  revert eff; induction l as [|it l IH]; intros eff.
  - exists 0%nat; split; reflexivity.
  - pose proof (scenario_writes it eff) as Hw.
    pose proof (scenario_stopped_validator it eff) as Hstop.
    unfold log_of in *. simpl for_each. unfold run_bind.
    destruct (scenario fx it eff) as [eff1 [log1 [[]|f]]];
      simpl fst in *; simpl snd in *.
    + destruct (IH eff1) as [k [Hk Hall]].
      destruct (for_each (scenario fx) l eff1) as [eff2 [log2 r]];
        simpl fst in *; simpl snd in *.
      destruct (isTagInRange fx (fst it) (snd it)) as [valid|f'];
        [|specialize (Hstop f' eq_refl); discriminate].
      exists (S k). rewrite writes_app, Hw. simpl. split.
      * rewrite Hk; reflexivity.
      * intros Hr; rewrite (Hall Hr); reflexivity.
    + destruct (isTagInRange fx (fst it) (snd it)) as [valid|f'].
      * exists 1%nat. rewrite Hw. split; [reflexivity | discriminate].
      * exists 0%nat. rewrite Hw. split; [reflexivity | discriminate].
Qed.

(** One turn of the loop on a well-tagged scenario stops in the comparator
    or not at all. *)
Lemma scenario_stopped (it : Equalizer.Tag * Equalizer.t) (eff : E) (f : fault) :
  fst it = Equalizer.getTag (snd it) ->
  snd (snd (scenario fx it eff)) = Stopped f ->
  exists status getParam,
    isTagInRange fx (fst it) (snd it) = Returned true
    /\ In (get_parameter (equalizer_id (fst it)) EX_NONE status getParam)
          (log_of (scenario fx it eff))
    /\ snd (isEqParameterExpected (specific_equalizer (snd it)) getParam) = Stopped f.
Proof.
  destruct it as [tag eq]; simpl. intros -> .
  rewrite scenario_unfold. unfold log_of.
  destruct (isTagInRange_own_tag fx eq) as [valid ->].
  destruct valid; [|discriminate].
  cbv zeta. simpl fst; simpl snd. intros Hstop.
  eexists _, _. split; [reflexivity|]. split; [right; left; reflexivity|].
  destruct (snd (isEqParameterExpected _ _)); [discriminate | congruence].
Qed.

Lemma for_each_stopped (l : list (Equalizer.Tag * Equalizer.t)) (eff : E) (f : fault) :
  Forall (fun it => fst it = Equalizer.getTag (snd it)) l ->
  snd (snd (for_each (scenario fx) l eff)) = Stopped f ->
  exists tag eq status getParam,
    In (tag, eq) l
    /\ isTagInRange fx tag eq = Returned true
    /\ In (get_parameter (equalizer_id tag) EX_NONE status getParam)
          (log_of (for_each (scenario fx) l eff))
    /\ snd (isEqParameterExpected (specific_equalizer eq) getParam) = Stopped f.
Proof.
  revert eff; induction l as [|it l IH]; intros eff Hwt; [discriminate|].
  inversion Hwt as [|? ? Hit Hl]; subst.
  pose proof (scenario_stopped it eff f Hit) as Hone.
  unfold log_of in *. simpl for_each. unfold run_bind.
  destruct (scenario fx it eff) as [eff1 [log1 [[]|f']]];
    simpl fst in *; simpl snd in *.
  - specialize (IH eff1 Hl).
    destruct (for_each (scenario fx) l eff1) as [eff2 [log2 r]];
      simpl fst in *; simpl snd in *.
    intros Hr. destruct (IH Hr) as (tag & eq & st & g & Hin & Hv & Hev & Hcmp).
    exists tag, eq, st, g. split; [right; exact Hin|]. split; [exact Hv|].
    split; [apply in_or_app; right; exact Hev | exact Hcmp].
  - intros Hr. destruct (Hone Hr) as (st & g & Hv & Hev & Hcmp).
    destruct it as [tag eq]; simpl in *.
    exists tag, eq, st, g. auto.
Qed.

End DriverOrder.

(** X12: the driver runs its scenarios in the order they were added: the
    parameters it writes are an initial part of the scheduled ones, and
    all of them, each once, when the run reaches its end. *)
Theorem SetAndGetEqualizerParameters_writes_in_order
    {E : Type} `{IEffect E} (fx : EqualizerTest) (mEffect : option E) :
  (exists k,
      writes (log_of (SetAndGetEqualizerParameters fx mEffect))
      = firstn k (scheduled fx))
  /\ (completed (SetAndGetEqualizerParameters fx mEffect) ->
      writes (log_of (SetAndGetEqualizerParameters fx mEffect)) = scheduled fx).
Proof.
  unfold SetAndGetEqualizerParameters, completed, scheduled.
  destruct mEffect as [eff|].
  - destruct (for_each_writes fx (mTags fx) eff) as [k [Hk Hall]].
    unfold log_of in *.
    destruct (for_each (scenario fx) (mTags fx) eff) as [eff' [log r]];
      simpl fst in *; simpl snd in *.
    split; [exists k; exact Hk | intros [_ Hr]; exact (Hall Hr)].
  - split; [exists 0%nat; reflexivity|].
    intros [Hnone _]; exfalso; apply Hnone; reflexivity.
Qed.

Lemma SetAndGetEqualizerParameters_writes_in_order_witness :
  writes (log_of (SetAndGetMultiBands (ReferenceEffect.fixture 10)
                    (Some ReferenceEffect.initial)))
  = [specific_equalizer (Equalizer.make_preset 0);
     specific_equalizer
       (Equalizer.make_bandLevels
          [BandLevel.mk 0 10; BandLevel.mk 4 10; BandLevel.mk 2 10])].
Proof.
  apply (proj2 (SetAndGetEqualizerParameters_writes_in_order
                  (addBandLevelsParam
                     (addPresetParam (ReferenceEffect.fixture 10) 0)
                     [BandLevel.mk 0 10; BandLevel.mk 4 10; BandLevel.mk 2 10])
                  (Some ReferenceEffect.initial))).
  split; [discriminate | reflexivity].
Defined.

(** X13: on well-tagged scenarios the validator never stops the driver; a
    run that stops does so inside the comparison of an in-range scenario,
    on a read-back the comparator could not go through. *)
Theorem SetAndGetEqualizerParameters_stops_in_comparator
    {E : Type} `{IEffect E} (fx : EqualizerTest) (mEffect : option E) (f : fault) :
  well_tagged fx ->
  snd (snd (SetAndGetEqualizerParameters fx mEffect)) = Stopped f ->
  exists tag eq status getParam,
    In (tag, eq) (mTags fx)
    /\ isTagInRange fx tag eq = Returned true
    /\ In (get_parameter (equalizer_id tag) EX_NONE status getParam)
          (log_of (SetAndGetEqualizerParameters fx mEffect))
    /\ snd (isEqParameterExpected (specific_equalizer eq) getParam) = Stopped f.
Proof.
  unfold SetAndGetEqualizerParameters, well_tagged.
  destruct mEffect as [eff|]; [|discriminate].
  intros Hwt. pose proof (for_each_stopped fx (mTags fx) eff f Hwt) as Hstop.
  unfold log_of in *.
  destruct (for_each (scenario fx) (mTags fx) eff) as [eff' [log r]];
    simpl fst in *; simpl snd in *.
  exact Hstop.
Qed.

Lemma SetAndGetEqualizerParameters_stops_in_comparator_witness :
  exists tag eq status getParam,
    In (tag, eq) (mTags (addPresetParam (ReferenceEffect.fixture 0) 3))
    /\ isTagInRange (addPresetParam (ReferenceEffect.fixture 0) 3) tag eq
       = Returned true
    /\ In (get_parameter (equalizer_id tag) EX_NONE status getParam)
          (log_of (@SetAndGetEqualizerParameters unit silent_effect
                     (addPresetParam (ReferenceEffect.fixture 0) 3) (Some tt)))
    /\ snd (isEqParameterExpected (specific_equalizer eq) getParam)
       = Stopped bad_union_access.
Proof.
  apply (@SetAndGetEqualizerParameters_stops_in_comparator unit silent_effect
           (addPresetParam (ReferenceEffect.fixture 0) 3) (Some tt)
           bad_union_access).
  - repeat constructor.
  - reflexivity.
Defined.

(* ================================================================== *)
(** * The test bodies *)


Lemma preset_verdict_true (fx : EqualizerTest) (i : Z) :
  fst (mPresetIndex fx) <= i <= snd (mPresetIndex fx) ->
  isTagInRange fx Equalizer.preset (Equalizer.make_preset i) = Returned true.
Proof.
  intros Hi; simpl. f_equal. rewrite andb_true_iff, Z.geb_le, Z.leb_le. lia.
Qed.


Lemma bandLevels_verdict_true (fx : EqualizerTest) (l : list BandLevel.t) :
  Forall (band_in_range fx) l ->
  isTagInRange fx Equalizer.bandLevels (Equalizer.make_bandLevels l) = Returned true.
Proof. intros Hall; simpl. f_equal. apply isBandInRange_Forall, Hall. Qed.


Section TestBodies.
Context {E : Type} `{IEffect E}.




End TestBodies.









(* ================================================================== *)
(** * Further properties of the capability model *)

Lemma index_range_perm {A : Type} (key : A -> Z) (l1 l2 : list A) :
  Permutation l1 l2 -> index_range key l1 = index_range key l2.
Proof.
  intros Hp. destruct l1 as [|x l1].
  - apply Permutation_nil in Hp; subst; reflexivity.
  - assert (Hne2 : l2 <> []).
    { intros ->. apply Permutation_sym, Permutation_nil in Hp; discriminate. }
    destruct (index_range_nonempty key (x :: l1) ltac:(discriminate))
      as (_ & _ & lo1 & hi1 & -> & Hlo1 & Hhi1 & Hall1).
    destruct (index_range_nonempty key l2 Hne2)
      as (_ & _ & lo2 & hi2 & -> & Hlo2 & Hhi2 & Hall2).
    rewrite Forall_forall in Hall1, Hall2.
    apply in_map_iff in Hlo1, Hhi1, Hlo2, Hhi2.
    destruct Hlo1 as (a1 & <- & Ha1), Hhi1 as (b1 & <- & Hb1).
    destruct Hlo2 as (a2 & <- & Ha2), Hhi2 as (b2 & <- & Hb2).
    pose proof (Hall2 a1 (Permutation_in _ Hp Ha1)).
    pose proof (Hall2 b1 (Permutation_in _ Hp Hb1)).
    pose proof (Hall1 a2 (Permutation_in _ (Permutation_sym Hp) Ha2)).
    pose proof (Hall1 b2 (Permutation_in _ (Permutation_sym Hp) Hb2)).
    do 2 f_equal; lia.
Qed.

(** X18: the two ranges read from a capability do not depend on the order
    in which the capability lists its presets and its bands. *)
Theorem index_ranges_order_independent (c1 c2 : Equalizer.Capability) :
  (Permutation (Equalizer.presets c1) (Equalizer.presets c2) ->
   setPresetIndexRange c1 = setPresetIndexRange c2)
  /\ (Permutation (Equalizer.bandFrequencies c1) (Equalizer.bandFrequencies c2) ->
      setBandIndexRange c1 = setBandIndexRange c2).
Proof. split; apply index_range_perm. Qed.

Lemma index_ranges_order_independent_witness :
  setPresetIndexRange
    {| Equalizer.bandFrequencies := [];
       Equalizer.presets := [Preset.mk 3 0; Preset.mk 0 0; Preset.mk 9 0] |}
  = setPresetIndexRange
      {| Equalizer.bandFrequencies := [];
         Equalizer.presets := [Preset.mk 0 0; Preset.mk 3 0; Preset.mk 9 0] |}.
Proof.
  apply (proj1 (index_ranges_order_independent
    {| Equalizer.bandFrequencies := [];
       Equalizer.presets := [Preset.mk 3 0; Preset.mk 0 0; Preset.mk 9 0] |}
    {| Equalizer.bandFrequencies := [];
       Equalizer.presets := [Preset.mk 0 0; Preset.mk 3 0; Preset.mk 9 0] |})).
  simpl. apply perm_swap.
Defined.

(** X19: when the descriptor is read and carries an equalizer capability
    with at least one preset and one band, [setTagRange] returns a fixture
    with the same scenarios and band level whose two ranges are not empty;
    under it every preset the capability lists is in range, and so is
    every band-level setting over bands the capability lists. *)
Theorem setTagRange_accepts_advertised {E : Type} `{IEffect E}
    (fx : EqualizerTest) (eff eff1 : E) (cap : Equalizer.Capability) :
  getDescriptor eff
  = (eff1, (EX_NONE, {| capability := Capability.make_equalizer cap |})) ->
  Equalizer.presets cap <> [] ->
  Equalizer.bandFrequencies cap <> [] ->
  exists fx',
    setTagRange fx eff = (eff1, ([get_descriptor EX_NONE EX_NONE], Returned fx'))
    /\ mTags fx' = mTags fx /\ mBandLevel fx' = mBandLevel fx
    /\ fst (mPresetIndex fx') <= snd (mPresetIndex fx')
    /\ fst (mBandIndex fx') <= snd (mBandIndex fx')
    /\ (forall p, In p (Equalizer.presets cap) ->
          isTagInRange fx' Equalizer.preset (Equalizer.make_preset (Preset.index p))
          = Returned true)
    /\ (forall l,
          Forall (fun b => In (BandLevel.index b)
                             (map BandFrequency.index (Equalizer.bandFrequencies cap))) l ->
          isTagInRange fx' Equalizer.bandLevels (Equalizer.make_bandLevels l)
          = Returned true).
Proof.
  intros Hdesc Hpresets Hbands.
  destruct (index_range_nonempty Preset.index _ Hpresets)
    as (_ & _ & plo & phi & Hp & Hplo & _ & Hpall).
  destruct (index_range_nonempty BandFrequency.index _ Hbands)
    as (_ & _ & blo & bhi & Hb & Hblo & _ & Hball).
  rewrite Forall_forall in Hpall, Hball.
  exists {| mPresetIndex := (plo, phi); mBandIndex := (blo, bhi);
            mBandLevel := mBandLevel fx; mTags := mTags fx |}.
  split.
  { unfold setTagRange, run_bind, call, emit, lift, access, run_ret, check_ret.
    rewrite Hdesc. simpl.
    unfold setPresetIndexRange, setBandIndexRange. rewrite Hp, Hb. reflexivity. }
  split; [reflexivity|]. split; [reflexivity|].
  apply in_map_iff in Hplo, Hblo.
  destruct Hplo as (p0 & <- & Hp0), Hblo as (b0 & <- & Hb0).
  split; [simpl; specialize (Hpall p0 Hp0); lia|].
  split; [simpl; specialize (Hball b0 Hb0); lia|].
  split.
  - intros p Hin. apply preset_verdict_true. simpl. apply Hpall, Hin.
  - intros l Hl. apply bandLevels_verdict_true.
    eapply Forall_impl; [|exact Hl].
    intros b Hin. apply in_map_iff in Hin. destruct Hin as (bf & Hidx & Hbf).
    unfold band_in_range; simpl. rewrite <- Hidx. apply Hball, Hbf.
Qed.

Lemma setTagRange_accepts_advertised_witness :
  exists fx',
    setTagRange (ReferenceEffect.fixture 0) ReferenceEffect.initial
    = (ReferenceEffect.initial, ([get_descriptor EX_NONE EX_NONE], Returned fx'))
    /\ mTags fx' = mTags (ReferenceEffect.fixture 0)
    /\ mBandLevel fx' = mBandLevel (ReferenceEffect.fixture 0)
    /\ fst (mPresetIndex fx') <= snd (mPresetIndex fx')
    /\ fst (mBandIndex fx') <= snd (mBandIndex fx')
    /\ (forall p,
          In p (map (fun i => Preset.mk i 0) [0; 1; 2; 3; 4; 5; 6; 7; 8; 9]) ->
          isTagInRange fx' Equalizer.preset (Equalizer.make_preset (Preset.index p))
          = Returned true)
    /\ (forall l,
          Forall (fun b =>
                    In (BandLevel.index b)
                       (map BandFrequency.index
                          (map (fun i => BandFrequency.mk i (i * 1000) (i * 1000 + 999))
                             [0; 1; 2; 3; 4]))) l ->
          isTagInRange fx' Equalizer.bandLevels (Equalizer.make_bandLevels l)
          = Returned true).
Proof.
  apply (setTagRange_accepts_advertised (ReferenceEffect.fixture 0)
           ReferenceEffect.initial ReferenceEffect.initial
           {| Equalizer.bandFrequencies :=
                map (fun i => BandFrequency.mk i (i * 1000) (i * 1000 + 999))
                  [0; 1; 2; 3; 4];
              Equalizer.presets :=
                map (fun i => Preset.mk i 0) [0; 1; 2; 3; 4; 5; 6; 7; 8; 9] |}).
  - reflexivity.
  - simpl; discriminate.
  - simpl; discriminate.
Defined.

(** X20: when the descriptor cannot be read, [setTagRange] records the
    failed status and leaves the fixture as it was; when the descriptor is
    read but carries another capability than the equalizer's, it stops at
    the read of the capability. *)
Theorem setTagRange_failures {E : Type} `{IEffect E}
    (fx : EqualizerTest) (eff eff1 : E) (status : binder_exception_t)
    (desc : Descriptor) :
  getDescriptor eff = (eff1, (status, desc)) ->
  (status <> EX_NONE ->
   setTagRange fx eff = (eff1, ([get_descriptor EX_NONE status], Returned fx)))
  /\ (forall which payload,
        status = EX_NONE ->
        capability desc = Capability.make_other which payload ->
        setTagRange fx eff
        = (eff1, ([get_descriptor EX_NONE EX_NONE], Stopped bad_union_access))).
Proof.
  intros Hdesc. split.
  - intros Hst. unfold setTagRange, run_bind, call, emit, run_ret, check_ret.
    rewrite Hdesc. simpl.
    destruct (Z.eqb_spec status EX_NONE) as [Heq|_]; [contradiction | reflexivity].
  - intros w x -> Hcap.
    unfold setTagRange, run_bind, call, emit, lift, access, run_ret, check_ret.
    rewrite Hdesc. simpl. rewrite Hcap. reflexivity.
Qed.

Lemma setTagRange_failures_witness :
  @setTagRange unit silent_effect (ReferenceEffect.fixture 0) tt
  = (tt, ([get_descriptor EX_NONE EX_ILLEGAL_ARGUMENT],
          Returned (ReferenceEffect.fixture 0))).
Proof.
  apply (proj1 (@setTagRange_failures unit silent_effect (ReferenceEffect.fixture 0)
                  tt tt EX_ILLEGAL_ARGUMENT
                  {| capability := Capability.make_other 0 0 |} eq_refl)).
  discriminate.
Defined.
